(** * GoogleTranslator: batch decoding of the translation service replies

    A shallow embedding of [src/translators/GoogleTranslator/index.ts]:
    the language-code fixup, the length-limit check, the markup codec
    ([encodeForBatch] / [parseXMLResponse]) and the two [translateBatch]
    variants, followed by the properties of the batch protocol.

    JavaScript strings are Rocq strings, one [ascii] per character; array
    indices and lengths are natural numbers; a promise is its outcome. The
    collaborators the file imports (transport, token service, query
    serializer, proxy wrapper) are parameters of the calls. The XPath
    evaluator and the serializer are modelled on document trees of any
    shape; the XML parser is modelled on well-formed markup, and is a
    parameter wherever the decoder is described in general. *)

From Stdlib Require Import ZArith Ascii String DecimalString HexadecimalString DecimalNat Lia.
From stdpp Require Import base option strings list gmap.

Set Warnings "-register-all".

(** ** JavaScript values and outcomes *)

(** The parsed body of a reply ([rsp.data]): a JSON value. *)
Inductive RawReply : Type :=
| RNull
| RBool (b : bool)
| RNum (n : Z)
| RStr (s : string)
| RArr (items : list RawReply)
| RObj (fields : list (string * RawReply)).

(** [Array.isArray(v)] *)
Definition isArray (v : RawReply) : bool :=
  match v with RArr _ => true | _ => false end.

(** [new Error(message)] *)
Record Error : Type := mkError { message : string }.

(** One [console.warn(label, payload)] call of the translators. The lines
    that the error handler of the XML parser writes on its own while a leaf
    is decoded are not recorded. *)
Inductive Warning : Type :=
| WarnReply (label : string) (payload : RawReply)
| WarnResult (label : string) (payload : list string).

(** A settled promise: the console lines the translators wrote on the way,
    and either the rejection reason or the value. *)
Definition Promise (A : Type) : Type := (list Warning * (Error + A))%type.

Definition resolve {A} (a : A) : Promise A := ([], inr a).
Definition reject {A} (e : Error) : Promise A := ([], inl e).

(** [p.then(k)] *)
Definition andThen {A B} (p : Promise A) (k : A → Promise B) : Promise B :=
  match p with
  | (w, inl e) => (w, inl e)
  | (w, inr a) => let '(w', r) := k a in (w ++ w', r)
  end.

(** [try { body } catch (err) { console.warn('Got response', rawResp); throw err; }] *)
Definition warnOnThrow {A} (rawResp : RawReply) (body : Promise A) : Promise A :=
  match body with
  | (w, inl err) => (w ++ [WarnReply "Got response" rawResp], inl err)
  | (w, inr a) => (w, inr a)
  end.

Definition unexpectedResponse : Error := mkError "Unexpected response".
Definition mismatchingLengths : Error :=
  mkError "Mismatching a lengths of original and translated arrays".

(** ** The markup codec *)

(** *** Document trees *)

(** A node of a parsed document: elements with their namespace, qualified
    name, attributes and children, and the childless kinds: text, CDATA
    sections, comments and processing instructions. An element in no
    namespace has the empty [namespaceURI]. [mark] is the slot an XPath
    node-set uses to flag its members; the parser fills it with [()]. *)
Inductive Node (A : Type) : Type :=
| Element (mark : A) (namespaceURI : string) (tagName : string)
    (attributes : list (string * string)) (childNodes : list (Node A))
| Text (mark : A) (data : string)
| CDATASection (mark : A) (data : string)
| Comment (mark : A) (data : string)
| ProcessingInstruction (mark : A) (target : string) (data : string).
Arguments Element {A} mark namespaceURI tagName attributes childNodes.
Arguments Text {A} mark data.
Arguments CDATASection {A} mark data.
Arguments Comment {A} mark data.
Arguments ProcessingInstruction {A} mark target data.

(** The document node with its children. *)
Record Document (A : Type) : Type := mkDocument { rootMark : A; documentNodes : list (Node A) }.
Arguments mkDocument {A} rootMark documentNodes.
Arguments rootMark {A} d.
Arguments documentNodes {A} d.

Definition dquote : ascii := "034"%char.

(** [s] cut at its first colon: what precedes the colon and what follows
    it. *)
Fixpoint splitAtColon (s : string) : option (string * string) :=
  match s with
  | EmptyString => None
  | String c s' =>
      if (c =? ":")%char then Some (EmptyString, s')
      else '(a, b) ← splitAtColon s'; Some (String c a, b)
  end.

(** A qualified name as prefix and local part, as the parser reads it. Only
    a colon after the first character sets a prefix off. *)
Definition qualifiedName (name : string) : option string * string :=
  match splitAtColon name with
  | Some (String c prefix, local) => (Some (String c prefix), local)
  | _ => (None, name)
  end.

(** [element.localName], as the document sets it when it creates the
    element: the part after the colon of a name with one colon, else the
    whole name. *)
Definition localName (tagName : string) : string :=
  match splitAtColon tagName with
  | Some (_, local) =>
      match splitAtColon local with
      | None => local
      | Some _ => tagName
      end
  | None => tagName
  end.

(** [n.localName || n.nodeName], the name that the XPath evaluator compares
    with the name of a test. *)
Definition testedName (tagName : string) : string :=
  if String.eqb (localName tagName) EmptyString then tagName else localName tagName.

(** [s.toLowerCase()] on the 8-bit alphabet of the strings here: the
    letters A-Z and the capital letters of Latin-1. *)
Definition lowerChar (c : ascii) : ascii :=
  let n := nat_of_ascii c in
  if ((65 <=? n) && (n <=? 90)) || ((192 <=? n) && (n <=? 222) && negb (n =? 215))
  then ascii_of_nat (n + 32)
  else c.

Fixpoint toLowerCase (s : string) : string :=
  match s with
  | EmptyString => EmptyString
  | String c s' => String (lowerChar c) (toLowerCase s')
  end.

(** *** [DOMParser.parseFromString] *)

(** The parser of [@xmldom/xmldom] is a library outside the repository. It is
    modelled on well-formed markup and on the commonest departures from it:
    elements with prefixed or plain names and namespace declarations,
    attributes in single or double quotes or without quotes, character data
    with the predefined entities and numeric character references, comments,
    CDATA sections and processing instructions. A [<] that no tag name
    follows is character data, end tags that close nothing are passed over,
    an attribute given twice fails the parse, and of several top-level
    elements the document keeps the first.

    The library also makes something of tags that are never closed, of
    attributes without a value and of document type declarations. The model
    does not follow it there and reports a failed parse. What rests on it
    are the properties of sources without any tag and of the encoded
    segments; the decoder in general is described for the outcome of the
    parse, whatever parser gives it (see [parseXMLResponseWith]). *)
Module DOMParser.

Definition isSpace (c : ascii) : bool :=
  (c =? " ")%char || (c =? "009")%char || (c =? "010")%char || (c =? "013")%char.

(** The first character of a name: a letter of the 8-bit alphabet or an
    underscore. *)
Definition isNameStartChar (c : ascii) : bool :=
  let n := nat_of_ascii c in
  ((65 <=? n) && (n <=? 90)) || ((97 <=? n) && (n <=? 122)) || (c =? "_")%char
  || ((192 <=? n) && (n <=? 214)) || ((216 <=? n) && (n <=? 246)) || (248 <=? n).

Definition isNameChar (c : ascii) : bool :=
  let n := nat_of_ascii c in
  isNameStartChar c || ((48 <=? n) && (n <=? 57)) || (c =? "-")%char || (c =? ".")%char
  || (n =? 183).

(** [span stop s]: the longest prefix of [s] free of [stop] characters, and
    what follows it. *)
Fixpoint span (stop : ascii → bool) (s : string) : string * string :=
  match s with
  | EmptyString => (EmptyString, EmptyString)
  | String c s' =>
      if stop c then (EmptyString, s)
      else let '(a, b) := span stop s' in (String c a, b)
  end.

Fixpoint skipSpaces (s : string) : string :=
  match s with
  | String c s' => if isSpace c then skipSpaces s' else s
  | EmptyString => EmptyString
  end.

(** [s] without its trailing spaces. *)
Fixpoint trimEnd (s : string) : string :=
  match s with
  | EmptyString => EmptyString
  | String c s' =>
      match trimEnd s' with
      | EmptyString => if isSpace c then EmptyString else String c EmptyString
      | kept => String c kept
      end
  end.

(** [s] after the prefix [pattern], when it starts with it. *)
Fixpoint stripPrefix (pattern s : string) : option string :=
  match pattern, s with
  | EmptyString, _ => Some s
  | String p pattern', String c s' =>
      if (p =? c)%char then stripPrefix pattern' s' else None
  | String _ _, EmptyString => None
  end.

(** [s] cut at the first occurrence of [pattern]: what precedes the
    occurrence and what follows it. *)
Fixpoint cut (pattern s : string) : option (string * string) :=
  match stripPrefix pattern s with
  | Some rest => Some (EmptyString, rest)
  | None =>
      match s with
      | EmptyString => None
      | String c s' => '(a, b) ← cut pattern s'; Some (String c a, b)
      end
  end.

(** A name without colon at the head of [s], and what follows it. *)
Definition readNCName (s : string) : option (string * string) :=
  match s with
  | String c _ =>
      if isNameStartChar c then Some (span (λ c, negb (isNameChar c)) s) else None
  | EmptyString => None
  end.

(** The characters that end the name of a start tag, or cut it short: the
    space and the characters below it, the padding character, and [/], [>],
    [=] and the quotes. *)
Definition isTagDelimiter (c : ascii) : bool :=
  let n := nat_of_ascii c in
  (n <=? 32) || (n =? 128) || (c =? "/")%char || (c =? ">")%char || (c =? "=")%char
  || (c =? dquote)%char || (c =? "'")%char.

(** A name at the head of [s], with or without prefix, and what follows
    it. *)
Definition readName (s : string) : option (string * string) :=
  match readNCName s with
  | None => None
  | Some (first, s1) =>
      match s1 with
      | String c s2 =>
          if (c =? ":")%char then
            match readNCName s2 with
            | Some (second, s3) => Some (first +:+ String ":" second, s3)
            | None => None
            end
          else Some (first, s1)
      | EmptyString => Some (first, s1)
      end
  end.

(** The character a numeric reference stands for, when its number is
    written in digits alone and the character lies in the 8-bit alphabet of
    the strings here. *)
Definition characterReference (number : string) : option ascii :=
  code ←
    match number with
    | String c digits =>
        if (c =? "x")%char
        then Nat.of_hex_uint <$> HexadecimalString.NilEmpty.uint_of_string digits
        else Nat.of_uint <$> DecimalString.NilEmpty.uint_of_string number
    | EmptyString => None
    end;
  if (code <? 256) && negb (String.eqb number "x") then Some (ascii_of_nat code) else None.

(** The predefined entities and the numeric character references. *)
Definition entityValue (name : string) : option ascii :=
  if String.eqb name "amp" then Some "&"%char
  else if String.eqb name "lt" then Some "<"%char
  else if String.eqb name "gt" then Some ">"%char
  else if String.eqb name "quot" then Some dquote
  else if String.eqb name "apos" then Some "'"%char
  else
    match name with
    | String c number => if (c =? "#")%char then characterReference number else None
    | EmptyString => None
    end.

(** Character data with its entity references replaced. [pending] holds the
    name read so far after an ampersand; a reference that has no value, or is
    never closed, stays as written. *)
Fixpoint decodeEntities (pending : option string) (s : string) : string :=
  match s, pending with
  | EmptyString, None => EmptyString
  | EmptyString, Some name => String "&" name
  | String c s', None =>
      if (c =? "&")%char then decodeEntities (Some EmptyString) s'
      else String c (decodeEntities None s')
  | String c s', Some name =>
      if (c =? ";")%char then
        match entityValue name with
        | Some v => String v (decodeEntities None s')
        | None => String "&" (name +:+ String ";" (decodeEntities None s'))
        end
      else if (c =? "&")%char then
        String "&" (name +:+ decodeEntities (Some EmptyString) s')
      else decodeEntities (Some (name +:+ String c EmptyString)) s'
  end.

Inductive Token : Type :=
| StartTag (name : string) (attrs : list (string * string))
| EmptyTag (name : string) (attrs : list (string * string))
| EndTag (name : string)
| Chars (data : string)
| CDATA (data : string)
| CommentTag (data : string)
| Instruction (target : string) (data : string).

(** The characters that end an attribute value written without quotes. *)
Definition isValueDelimiter (c : ascii) : bool :=
  let n := nat_of_ascii c in
  (n <=? 32) || (n =? 128) || (c =? ">")%char || (c =? "=")%char
  || (c =? dquote)%char || (c =? "'")%char.

(** An unquoted value that runs up to the [>] of its tag: a [/] at its end
    closes the tag and is no part of the value. *)
Fixpoint withoutSlash (value : string) : string * bool :=
  match value with
  | EmptyString => (EmptyString, false)
  | String c EmptyString =>
      if (c =? "/")%char then (EmptyString, true) else (value, false)
  | String c value' => let '(kept, closing) := withoutSlash value' in (String c kept, closing)
  end.

(** The attributes of a start tag up to its closing [>] or [/>]: the
    attributes, whether the tag closes itself, and what follows the tag. A
    value stands in single or double quotes, or without quotes up to the
    next space or the end of the tag. An attribute name that the tag already
    has fails the parse. *)
Fixpoint readAttributes (fuel : nat) (s : string) (attrs : list (string * string))
    : option (list (string * string) * bool * string) :=
  match fuel with
  | O => None
  | S fuel =>
      match skipSpaces s with
      | EmptyString => None
      | String c s1 =>
          if (c =? ">")%char then Some (attrs, false, s1)
          else if (c =? "/")%char then
            match s1 with
            | String c' s2 => if (c' =? ">")%char then Some (attrs, true, s2) else None
            | EmptyString => None
            end
          else
            match readName (String c s1) with
            | None => None
            | Some (name, s2) =>
                match skipSpaces s2 with
                | String e s3 =>
                    if (e =? "=")%char then
                      match skipSpaces s3 with
                      | String q s4 =>
                          if existsb (String.eqb name) attrs.*1 then None
                          else if (q =? dquote)%char || (q =? "'")%char then
                            let '(value, s5) := span (Ascii.eqb q) s4 in
                            match s5 with
                            | String _ s6 =>
                                if existsb (Ascii.eqb "<") (list_ascii_of_string value) then None
                                else readAttributes fuel s6 (attrs ++ [(name, decodeEntities None value)])
                            | EmptyString => None
                            end
                          else if (q =? "/")%char || isValueDelimiter q then None
                          else
                            let '(value, s5) := span isValueDelimiter (String q s4) in
                            match s5 with
                            | String d s6 =>
                                if existsb (Ascii.eqb "<") (list_ascii_of_string value) then None
                                else if (d =? "=")%char then None
                                else if (d =? ">")%char then
                                  let '(value, selfClosing) := withoutSlash value in
                                  Some (attrs ++ [(name, decodeEntities None value)], selfClosing, s6)
                                else
                                  readAttributes fuel s6 (attrs ++ [(name, decodeEntities None value)])
                            | EmptyString => None
                            end
                      | EmptyString => None
                      end
                    else None
                | EmptyString => None
                end
            end
      end
  end.

(** The tags and character data of [s], in order. What follows a [<] up to
    the next space, [/] or [>] is the name of a start tag; when it is no
    name, the [<] is character data and reading goes on after it. *)
Fixpoint tokenize (fuel : nat) (s : string) : option (list Token) :=
  match fuel with
  | O => None
  | S fuel =>
      match s with
      | EmptyString => Some []
      | String c rest =>
          if (c =? "<")%char then
            match rest with
            | EmptyString => Some [Chars "<"]
            | String c' rest' =>
                if (c' =? "/")%char then
                  match readName rest' with
                  | None => None
                  | Some (name, s1) =>
                      match skipSpaces s1 with
                      | String e s2 =>
                          if (e =? ">")%char then cons (EndTag name) <$> tokenize fuel s2
                          else None
                      | EmptyString => None
                      end
                  end
                else if (c' =? "?")%char then
                  match cut "?>" rest' with
                  | None => None
                  | Some (body, s1) =>
                      let '(target, data) := span isSpace body in
                      cons (Instruction target (trimEnd (skipSpaces data))) <$> tokenize fuel s1
                  end
                else if (c' =? "!")%char then
                  match stripPrefix "--" rest' with
                  | Some s1 =>
                      match cut "-->" s1 with
                      | None => None
                      | Some (data, s2) => cons (CommentTag data) <$> tokenize fuel s2
                      end
                  | None =>
                      match stripPrefix "[CDATA[" rest' with
                      | Some s1 =>
                          match cut "]]>" s1 with
                          | None => None
                          | Some (data, s2) => cons (CDATA data) <$> tokenize fuel s2
                          end
                      | None => None
                      end
                  end
                else
                  let '(run, s1) := span isTagDelimiter rest in
                  match readName run, s1 with
                  | Some (name, EmptyString), String d _ =>
                      if (d =? "=")%char || (d =? dquote)%char || (d =? "'")%char
                      then cons (Chars "<") <$> tokenize fuel rest
                      else
                        match readAttributes (S (String.length s1)) s1 [] with
                        | None => None
                        | Some (attrs, selfClosing, s2) =>
                            cons (if selfClosing : bool then EmptyTag name attrs
                                  else StartTag name attrs) <$> tokenize fuel s2
                        end
                  | Some (name, EmptyString), EmptyString => None
                  | _, _ => cons (Chars "<") <$> tokenize fuel rest
                  end
            end
          else
            let '(chars, s1) := span (Ascii.eqb "<") s in
            cons (Chars (decodeEntities None chars)) <$> tokenize fuel s1
      end
  end.

(** Character data joins the text node it follows, if it follows one: the
    document is normalized once it is built. *)
Fixpoint appendText (siblings : list (Node ())) (data : string) : list (Node ()) :=
  match siblings with
  | [] => [Text () data]
  | [Text mark before] => [Text mark (before +:+ data)]
  | node :: siblings => node :: appendText siblings data
  end.

(** The tree of a token sequence. [opened] holds the elements not closed
    yet, innermost first, each with the siblings that precede it; [siblings]
    are the children collected for the innermost one. An end tag closes the
    innermost open element when it bears its name; when it bears that name
    in another letter case the parse fails; any other end tag is passed
    over. A CDATA section makes a node unless it is empty. Namespaces are
    filled in afterwards ([resolveNamespaces]). *)
Fixpoint buildTree (tokens : list Token)
    (opened : list (string * list (string * string) * list (Node ())))
    (siblings : list (Node ())) : option (list (Node ())) :=
  match tokens with
  | [] => match opened with [] => Some siblings | _ :: _ => None end
  | Chars data :: tokens => buildTree tokens opened (appendText siblings data)
  | CDATA data :: tokens =>
      if String.eqb data EmptyString then buildTree tokens opened siblings
      else
        match opened with
        | [] => None
        | _ :: _ => buildTree tokens opened (siblings ++ [CDATASection () data])
        end
  | CommentTag data :: tokens => buildTree tokens opened (siblings ++ [Comment () data])
  | Instruction target data :: tokens =>
      buildTree tokens opened (siblings ++ [ProcessingInstruction () target data])
  | EmptyTag name attrs :: tokens =>
      buildTree tokens opened (siblings ++ [Element () EmptyString name attrs []])
  | StartTag name attrs :: tokens => buildTree tokens ((name, attrs, siblings) :: opened) []
  | EndTag name :: tokens =>
      match opened with
      | (name', attrs, before) :: opened' =>
          if String.eqb name name'
          then buildTree tokens opened' (before ++ [Element () EmptyString name' attrs siblings])
          else if String.eqb (toLowerCase name) (toLowerCase name') then None
          else buildTree tokens opened siblings
      | [] => buildTree tokens [] siblings
      end
  end.

(** Of the top-level nodes the document keeps one element, the first. *)
Fixpoint singleRoot (seen : bool) (nodes : list (Node ())) : list (Node ()) :=
  match nodes with
  | [] => []
  | Element mark ns tagName attrs kids :: nodes =>
      if seen then singleRoot true nodes
      else Element mark ns tagName attrs kids :: singleRoot true nodes
  | node :: nodes => node :: singleRoot seen nodes
  end.

(** The namespace declarations in scope: the default namespace and the
    bound prefixes, innermost first. *)
Record Scope : Type := mkScope { defaultNamespace : string; boundPrefixes : list (string * string) }.

Definition initialScope : Scope :=
  mkScope EmptyString [("xml", "http://www.w3.org/XML/1998/namespace")].

(** The scope after the attribute [attr]: [xmlns] sets the default
    namespace, [xmlns:p] binds the prefix [p]. *)
Definition declare (scope : Scope) (attr : string * string) : Scope :=
  match qualifiedName attr.1 with
  | (None, name) =>
      if String.eqb name "xmlns" then mkScope attr.2 (boundPrefixes scope) else scope
  | (Some prefix, name) =>
      if String.eqb prefix "xmlns"
      then mkScope (defaultNamespace scope) ((name, attr.2) :: boundPrefixes scope)
      else scope
  end.

(** The namespace of an element name: what its prefix is bound to, the
    default namespace when it has none. *)
Definition namespaceOf (scope : Scope) (tagName : string) : string :=
  match qualifiedName tagName with
  | (None, _) => defaultNamespace scope
  | (Some prefix, _) =>
      match List.find (λ binding, String.eqb binding.1 prefix) (boundPrefixes scope) with
      | Some binding => binding.2
      | None => EmptyString
      end
  end.

Fixpoint resolveNamespaces (scope : Scope) (n : Node ()) : Node () :=
  match n with
  | Element mark _ tagName attrs kids =>
      let scope := foldl declare scope attrs in
      Element mark (namespaceOf scope tagName) tagName attrs (map (resolveNamespaces scope) kids)
  | _ => n
  end.

(** The line breaks of the source are normalized before it is read: a
    carriage return with the line feed or next-line character after it, a
    lone carriage return and a lone next-line character each become one line
    feed. *)
Fixpoint normalizeLineEndings (s : string) : string :=
  match s with
  | EmptyString => EmptyString
  | String c s' =>
      if (c =? "013")%char then
        String "010"
          match s' with
          | String c' s'' =>
              if (c' =? "010")%char || (c' =? "133")%char
              then normalizeLineEndings s''
              else normalizeLineEndings s'
          | EmptyString => EmptyString
          end
      else if (c =? "133")%char then String "010" (normalizeLineEndings s')
      else String c (normalizeLineEndings s')
  end.

Definition parseFromString (source : string) : option (Document ()) :=
  let source := normalizeLineEndings source in
  tokens ← tokenize (S (String.length source)) source;
  nodes ← buildTree tokens [] [];
  Some (mkDocument () (map (resolveNamespaces initialScope) (singleRoot false nodes))).

End DOMParser.

(** *** [xpath.select] *)

(** The evaluator of the [xpath] package, on the fragment of XPath 1.0 the
    decoder uses: absolute location paths along the child and
    descendant-or-self axes, with name, [*], [text()] and [node()] tests. *)
Module xpath.

Inductive Axis : Type := Child | DescendantOrSelf.

Inductive NodeTest : Type :=
| NameTest (name : string)   (* [pre] *)
| AnyElement                 (* [*] *)
| TextTest                   (* [text()] *)
| AnyNode.                   (* [node()] *)

(** The predicates the expression needs: [self::t] read as a boolean, and
    [not(...)]. *)
Inductive Predicate : Type :=
| PSelf (t : NodeTest)
| PNot (p : Predicate).

Record Step : Type := mkStep { axis : Axis; nodeTest : NodeTest; predicates : list Predicate }.

(** An absolute location path [/step/step/...]. *)
Definition LocationPath : Type := list Step.

(** The abbreviation [//] stands for [/descendant-or-self::node()/]. *)
Definition slashSlash : Step := mkStep DescendantOrSelf AnyNode [].

(** A name test without prefix matches the elements in no namespace whose
    local name is the name of the test. On the documents of [DOMParser] the
    evaluator compares names without regard to letter case, since their
    implementation claims every feature it is asked about, the HTML one
    included. [text()] matches text nodes and CDATA sections. *)
Definition matchesTest {A} (t : NodeTest) (n : Node A) : bool :=
  match t, n with
  | NameTest name, Element _ namespaceURI tagName _ _ =>
      String.eqb namespaceURI EmptyString
      && String.eqb (toLowerCase (testedName tagName)) (toLowerCase name)
  | AnyElement, Element _ _ _ _ _ => true
  | TextTest, Text _ _ => true
  | TextTest, CDATASection _ _ => true
  | AnyNode, _ => true
  | _, _ => false
  end.

Fixpoint holds {A} (p : Predicate) (n : Node A) : bool :=
  match p with
  | PSelf t => matchesTest t n
  | PNot p => negb (holds p n)
  end.

Definition accepts {A} (s : Step) (n : Node A) : bool :=
  matchesTest (nodeTest s) n && forallb (λ p, holds p n) (predicates s).

(** The same for the document node, which only [node()] matches. *)
Definition rootMatchesTest (t : NodeTest) : bool :=
  match t with AnyNode => true | _ => false end.

Fixpoint rootHolds (p : Predicate) : bool :=
  match p with
  | PSelf t => rootMatchesTest t
  | PNot p => negb (rootHolds p)
  end.

Definition rootAccepts (s : Step) : bool :=
  rootMatchesTest (nodeTest s) && forallb rootHolds (predicates s).

(** A node-set is the set of flagged nodes of the document. One step along
    the child axis flags the accepted children of flagged nodes;
    [parentSelected] is the flag of the parent in the incoming set. *)
Fixpoint childStep (s : Step) (parentSelected : bool) (n : Node bool) : Node bool :=
  let flag := parentSelected && accepts s n in
  match n with
  | Element selected namespaceURI tagName attrs kids =>
      Element flag namespaceURI tagName attrs (map (childStep s selected) kids)
  | Text _ data => Text flag data
  | CDATASection _ data => CDATASection flag data
  | Comment _ data => Comment flag data
  | ProcessingInstruction _ target data => ProcessingInstruction flag target data
  end.

(** One step along descendant-or-self flags the accepted nodes that are in
    the incoming set or below one of its nodes ([above]). *)
Fixpoint descendantOrSelfStep (s : Step) (above : bool) (n : Node bool) : Node bool :=
  match n with
  | Element selected namespaceURI tagName attrs kids =>
      let reached := above || selected in
      Element (reached && accepts s n) namespaceURI tagName attrs
        (map (descendantOrSelfStep s reached) kids)
  | Text selected data => Text ((above || selected) && accepts s n) data
  | CDATASection selected data => CDATASection ((above || selected) && accepts s n) data
  | Comment selected data => Comment ((above || selected) && accepts s n) data
  | ProcessingInstruction selected target data =>
      ProcessingInstruction ((above || selected) && accepts s n) target data
  end.

Definition applyStep (d : Document bool) (s : Step) : Document bool :=
  match axis s with
  | Child => mkDocument false (map (childStep s (rootMark d)) (documentNodes d))
  | DescendantOrSelf =>
      mkDocument (rootMark d && rootAccepts s)
        (map (descendantOrSelfStep s (rootMark d)) (documentNodes d))
  end.

(** The node-set holding no node of the tree. *)
Fixpoint unselected {A} (n : Node A) : Node bool :=
  match n with
  | Element _ namespaceURI tagName attrs kids =>
      Element false namespaceURI tagName attrs (map unselected kids)
  | Text _ data => Text false data
  | CDATASection _ data => CDATASection false data
  | Comment _ data => Comment false data
  | ProcessingInstruction _ target data => ProcessingInstruction false target data
  end.

(** The members of a node-set in document order. *)
Fixpoint selectedNodes (n : Node bool) : list (Node bool) :=
  match n with
  | Element selected _ _ _ kids =>
      (if selected then [n] else []) ++ flat_map selectedNodes kids
  | Text selected _ | CDATASection selected _ | Comment selected _
  | ProcessingInstruction selected _ _ => if selected then [n] else []
  end.

(** [xpath.select(path, doc)] for an absolute path: the steps are applied
    from left to right, starting from the set that holds the document node
    alone. The result lists nodes below the document node. *)
Definition select {A} (path : LocationPath) (doc : Document A) : list (Node bool) :=
  flat_map selectedNodes
    (documentNodes
       (foldl applyStep (mkDocument true (map unselected (documentNodes doc))) path)).

End xpath.

(** [//pre/*[not(self::i)]//text()] *)
Definition translatedTextPath : xpath.LocationPath :=
  [ xpath.slashSlash;
    xpath.mkStep xpath.Child (xpath.NameTest "pre") [];
    xpath.mkStep xpath.Child xpath.AnyElement [xpath.PNot (xpath.PSelf (xpath.NameTest "i"))];
    xpath.slashSlash;
    xpath.mkStep xpath.Child xpath.TextTest [] ].

(** *** [Node.toString] *)

(** The serializer writes the markup characters of character data as
    entity references. *)
Fixpoint escapeText (s : string) : string :=
  match s with
  | EmptyString => EmptyString
  | String c s' =>
      if (c =? "<")%char then "&lt;" +:+ escapeText s'
      else if (c =? ">")%char then "&gt;" +:+ escapeText s'
      else if (c =? "&")%char then "&amp;" +:+ escapeText s'
      else String c (escapeText s')
  end.

Fixpoint escapeAttribute (s : string) : string :=
  match s with
  | EmptyString => EmptyString
  | String c s' =>
      if (c =? "<")%char then "&lt;" +:+ escapeAttribute s'
      else if (c =? "&")%char then "&amp;" +:+ escapeAttribute s'
      else if (c =? dquote)%char then "&quot;" +:+ escapeAttribute s'
      else String c (escapeAttribute s')
  end.

Definition attributeToString (a : string * string) : string :=
  " " +:+ a.1 +:+ "=" +:+ String dquote (escapeAttribute a.2 +:+ String dquote EmptyString).

(** A CDATA section is written back as it was read. *)
Definition cdataToString (data : string) : string := "<![CDATA[" +:+ data +:+ "]]>".

Fixpoint toString {A} (n : Node A) : string :=
  match n with
  | Text _ data => escapeText data
  | CDATASection _ data => cdataToString data
  | Comment _ data => "<!--" +:+ data +:+ "-->"
  | ProcessingInstruction _ target data => "<?" +:+ target +:+ " " +:+ data +:+ "?>"
  | Element _ _ tagName attrs kids =>
      let open := "<" +:+ tagName +:+ String.concat EmptyString (map attributeToString attrs) in
      match kids with
      | [] => open +:+ "/>"
      | _ :: _ =>
          open +:+ ">" +:+ String.concat EmptyString (map toString kids)
          +:+ "</" +:+ tagName +:+ ">"
      end
  end.

(** *** The codec of [GoogleTranslator] *)

(** [`${i}`] for an array index. *)
Definition numberToString (i : nat) : string :=
  DecimalString.NilEmpty.string_of_uint (Nat.to_uint i).

(** [`<pre><a i="${i}">${text}</a></pre>`] *)
Definition encodeSegment (i : nat) (text : string) : string :=
  "<pre><a i=" +:+ String dquote (numberToString i)
  +:+ String dquote ">" +:+ text +:+ "</a></pre>".

(** Line 229: [textList.map((text, i) => ...)]. *)
Definition encodeForBatch (textList : list string) : list string :=
  imap encodeSegment textList.

(** [parts.join(sep)] *)
Definition join (sep : string) (parts : list string) : string := String.concat sep parts.

(** Lines 149-152, on the outcome of the parse: [None] stands for a parse
    that fails, by exception or by yielding no document, and ends in the
    [catch] branch like any exception of the two lines after it. *)
Definition extractText {A} (parsed : option (Document A)) : option string :=
  match parsed with
  | None => None
  | Some doc =>
      let nodes := xpath.select translatedTextPath doc in
      if length nodes =? 0 then None
      else Some (join " " (map toString nodes))
  end.

(** Lines 146-156 with the parser as a parameter. *)
Definition parseXMLResponseWith {A} (parseFromString : string → option (Document A))
    (text : string) : option string :=
  extractText (parseFromString text).

(** Lines 146-156. *)
Definition parseXMLResponse (text : string) : option string :=
  parseXMLResponseWith DOMParser.parseFromString text.

(** ** [AbstractGoogleTranslator] *)

(** Lines 20-23. The keys looked up are language codes
    ([langCodeWithAuto]), so only the two entries of the literal matter. *)
Definition fixedLanguagesMap : gmap string string :=
  {[ "he" := "iw"; "jv" := "jw" ]}.

(** Lines 69-71. *)
Definition getLengthLimit : Z := 4000.

(** Lines 77-80; [a ?? b] is [default b a]. *)
Definition getFixedLanguage (lang : string) : string :=
  if String.eqb lang "zh" then "zh-CN"
  else default lang (fixedLanguagesMap !! lang).

(** ** [GoogleTranslator.checkLimitExceeding] *)

(** The argument of type [string | string[]]. *)
Inductive TextOrList : Type :=
| OneText (text : string)
| TextList (text : list string).

(** Lines 89-98. *)
Definition checkLimitExceeding (text : TextOrList) : Z :=
  match text with
  | TextList text =>
      let encodedText := join EmptyString (encodeForBatch text) in
      let extra := (Z.of_nat (String.length encodedText) - getLengthLimit)%Z in
      if (0 <? extra)%Z then extra else 0%Z
  | OneText text =>
      let extra := (Z.of_nat (String.length text) - getLengthLimit)%Z in
      if (0 <? extra)%Z then extra else 0%Z
  end.

(** ** Leaf traversal *)

(** Modelled from the spec: [visitArrayItems] lives in [./utils], which is
    not among the sources. Section 4.1 describes it: every leaf of the
    nested arrays is handed to the visitor exactly once, depth first and
    left to right; arrays are recursed into and never visited themselves.
    The visitor of the callers updates a captured array, which is the state
    [S] threaded here. *)
Fixpoint visitItem {S} (visitor : RawReply → S → S) (obj : RawReply) (s : S) : S :=
  match obj with
  | RArr items => foldl (λ s o, visitItem visitor o s) s items
  | _ => visitor obj s
  end.

Definition visitArrayItems {S} (arr : list RawReply)
    (visitor : RawReply → S → S) (s : S) : S :=
  foldl (λ s o, visitItem visitor o s) s arr.

(** The leaves in visiting order. *)
Fixpoint leavesOf (obj : RawReply) : list RawReply :=
  match obj with
  | RArr items => flat_map leavesOf items
  | _ => [obj]
  end.

Definition flattenedLeaves (arr : list RawReply) : list RawReply :=
  flat_map leavesOf arr.

(** [typeof obj === 'string'] with the string at hand. *)
Definition asString (obj : RawReply) : option string :=
  match obj with RStr s => Some s | _ => None end.

(** The string leaves in visiting order. *)
Definition stringLeaves (arr : list RawReply) : list string :=
  omap asString (flattenedLeaves arr).

(** ** Variant B: [GoogleTranslatorTokenFree.translateBatch] *)

(** The visitor of lines 274-278. *)
Definition collectString (obj : RawReply) (intermediateTextsArray : list string) : list string :=
  match obj with
  | RStr s => intermediateTextsArray ++ [s]
  | _ => intermediateTextsArray
  end.

(** The [for (const idx in intermediateTextsArray)] loop of lines 285-299,
    entered at index [idx] with the entries from there on. *)
Fixpoint forIn (isSingleResponseMode isOneToOneMappingMode : bool)
    (idx : nat) (entries : list string) (result : list string) : list string :=
  match entries with
  | [] => result
  | text :: rest =>
      if isSingleResponseMode then result ++ [text]
      else
        let isTranslation := isOneToOneMappingMode || (idx mod 2 =? 0) in
        forIn isSingleResponseMode isOneToOneMappingMode (S idx) rest
          (if isTranslation then result ++ [text] else result)
  end.

(** Lines 273-299: the reconciled list, before its length is checked. *)
Definition reconcileTokenFree (text : list string) (arr : list RawReply) : list string :=
  let intermediateTextsArray := visitArrayItems arr collectString [] in
  let isSingleResponseMode := length text =? 1 in
  let isOneToOneMappingMode := length intermediateTextsArray =? length text in
  forIn isSingleResponseMode isOneToOneMappingMode 0 intermediateTextsArray [].

(** Lines 267-313: the handler of the reply. *)
Definition decodeTokenFree (text : list string) (rawResp : RawReply) : Promise (list string) :=
  warnOnThrow rawResp
    match rawResp with
    | RArr arr =>
        let result := reconcileTokenFree text arr in
        if negb (length result =? length text)
        then ([WarnResult "Translation result" result], inl mismatchingLengths)
        else resolve result
    | _ => reject unexpectedResponse
    end.

(** ** Variant A: [GoogleTranslator.translateBatch] *)

(** [parsedText || obj]: the left operand unless it is [null] or empty. *)
Definition orElse (parsedText : option string) (obj : string) : string :=
  match parsedText with
  | Some parsed => if String.eqb parsed EmptyString then obj else parsed
  | None => obj
  end.

(** The visitor of lines 198-212. *)
Definition decodeLeaf (isSingleResponseMode : bool) (obj : RawReply)
    (result : list string) : list string :=
  if isSingleResponseMode && (length result =? 1) then result
  else
    match obj with
    | RStr obj =>
        if isSingleResponseMode then
          let parsedText := parseXMLResponse obj in
          result ++ [orElse parsedText obj]
        else
          match parseXMLResponse obj with
          | Some parsedText => result ++ [parsedText]
          | None => result
          end
    | _ => result
    end.

(** Lines 195-212: the reconciled list, before its length is checked. *)
Definition reconcileTokenAuthorized (text : list string) (arr : list RawReply) : list string :=
  let isSingleResponseMode := length text =? 1 in
  visitArrayItems arr (decodeLeaf isSingleResponseMode) [].

(** Lines 189-225: the handler of the reply. *)
Definition decodeTokenAuthorized (text : list string) (rawResp : RawReply)
    : Promise (list string) :=
  warnOnThrow rawResp
    match rawResp with
    | RArr arr =>
        let result := reconcileTokenAuthorized text arr in
        if negb (length result =? length text)
        then reject mismatchingLengths
        else resolve result
    | _ => reject unexpectedResponse
    end.

(** ** The calls *)

Inductive Method : Type := GET | POST.

(** A value of a query object handed to [stringify]. *)
Inductive QueryValue : Type :=
| QNumber (n : Z)
| QString (s : string)
| QStrings (l : list string).

(** The configuration object handed to [axios]. *)
Record AxiosRequest : Type := mkRequest {
  url : string;
  method : Method;
  withCredentials : bool;
  headers : list (string * string);
  data : option string
}.

(** The outcome of an awaited collaborator that writes nothing to the console. *)
Definition settled {A} (r : Error + A) : Promise A := ([], r).

Section Calls.
(** The collaborators of the translators: the transport, the token service
    of [./token], the query serializer, the URI encoder, and the proxy
    wrapper and extra headers of [BaseTranslator]. *)
Variable axios : AxiosRequest → Error + RawReply.
Variable getToken : string → Error + string.
Variable stringify : list (string * QueryValue) → string.
Variable encodeURIComponent : string → string.
Variable wrapUrlToCorsProxy : string → string.
Variable optionsHeaders : list (string * string).

(** Lines 158-227. *)
Definition translateBatchTokenAuthorized (text : list string) (from to : string)
    : Promise (list string) :=
  let preparedText := encodeForBatch text in
  andThen (settled (getToken (join EmptyString preparedText))) (λ tk,
    let apiPath := "https://translate.googleapis.com/translate_a/t" in
    let data :=
      [ ("anno", QNumber 3); ("client", QString "te"); ("v", QString "1.0");
        ("format", QString "html");
        ("sl", QString (getFixedLanguage from));
        ("tl", QString (getFixedLanguage to));
        ("tk", QString tk) ] in
    let url := apiPath +:+ "?" +:+ stringify data in
    let body :=
      join EmptyString (map (λ text, "&q=" +:+ encodeURIComponent text) preparedText) in
    andThen
      (settled (axios
         {| url := wrapUrlToCorsProxy url;
            method := POST;
            withCredentials := false;
            headers := ("Content-Type", "application/x-www-form-urlencoded") :: optionsHeaders;
            data := Some body |}))
      (decodeTokenAuthorized text)).

(** Lines 245-314. *)
Definition translateBatchTokenFree (text : list string) (from to : string)
    : Promise (list string) :=
  let apiPath := "https://translate.googleapis.com/translate_a/t" in
  let data :=
    [ ("client", QString "dict-chrome-ex");
      ("sl", QString (getFixedLanguage from));
      ("tl", QString (getFixedLanguage to));
      ("q", QStrings text) ] in
  let url := apiPath +:+ "?" +:+ stringify data in
  andThen
    (settled (axios
       {| url := wrapUrlToCorsProxy url;
          method := GET;
          withCredentials := false;
          headers := ("Content-Type", "application/x-www-form-urlencoded") :: optionsHeaders;
          data := None |}))
    (decodeTokenFree text).

(** Lines 240-243: [const [translation] = await ...; return translation;].
    Destructuring an empty array would leave [undefined], here [None]. *)
Definition translateTokenFree (text : string) (from to : string)
    : Promise (option string) :=
  andThen (translateBatchTokenFree [text] from to) (λ batch,
    let translation := head batch in
    resolve translation).
End Calls.

(** ** [AbstractGoogleTranslator.getSupportedLanguages] *)

(** Lines 30-45. *)
Definition supportedLanguages : list string :=
  [ "af"; "ak"; "am"; "ar"; "as"; "ay"; "az"; "be"; "bg"; "bho";
    "bm"; "bn"; "bs"; "ca"; "ceb"; "ckb"; "co"; "cs"; "cy"; "da";
    "de"; "doi"; "dv"; "ee"; "el"; "en"; "eo"; "es"; "et"; "eu";
    "fa"; "fi"; "fr"; "fy"; "ga"; "gd"; "gl"; "gn"; "gom"; "gu";
    "ha"; "haw"; "hi"; "hmn"; "hr"; "ht"; "hu"; "hy"; "id"; "ig";
    "ilo"; "is"; "it"; "iw"; "ja"; "jw"; "ka"; "kk"; "km"; "kn";
    "ko"; "kri"; "ku"; "ky"; "la"; "lb"; "lg"; "ln"; "lo"; "lt";
    "lus"; "lv"; "mai"; "mg"; "mi"; "mk"; "ml"; "mn"; "mni-Mtei"; "mr";
    "ms"; "mt"; "my"; "ne"; "nl"; "no"; "nso"; "ny"; "om"; "or";
    "pa"; "pl"; "ps"; "pt"; "qu"; "ro"; "ru"; "rw"; "sa"; "sd";
    "si"; "sk"; "sl"; "sm"; "sn"; "so"; "sq"; "sr"; "st"; "su";
    "sv"; "sw"; "ta"; "te"; "tg"; "th"; "ti"; "tk"; "tl"; "tr";
    "ts"; "tt"; "ug"; "uk"; "ur"; "uz"; "vi"; "xh"; "yi"; "yo";
    "zh-CN"; "zh-TW"; "zu" ].

(** Lines 57-59: the entries of [fixedLanguagesMap], each turned around, made
    into a map again. No two entries have the same value, so no entry
    overwrites another. *)
Definition reversedLanguagesMap : gmap string string :=
  list_to_map (prod_swap <$> map_to_list fixedLanguagesMap).

(** Lines 62-65: the legacy codes replaced by the actual ones. *)
Definition actualLanguageCode (lang : string) : string :=
  default lang (reversedLanguagesMap !! lang).

(** Lines 56-67. [getLanguageCodesISO639v2] comes from [util/languages]. *)
Definition getSupportedLanguages (getLanguageCodesISO639v2 : list string → list string)
    : list string :=
  getLanguageCodesISO639v2 (map actualLanguageCode supportedLanguages).

(** ** [GoogleTranslator.translate] *)

(** Lines 134-138: the text of one chunk of the reply; [chunk[0]] of an
    empty array is [undefined], which is no string. *)
Definition chunkText (chunk : RawReply) : string :=
  match chunk with
  | RArr items =>
      match head items with
      | Some (RStr s) => s
      | _ => EmptyString
      end
  | _ => EmptyString
  end.

(** Lines 128-142: the handler of the reply. There is no [try] around it. *)
Definition decodeSingle (rsp : RawReply) : Promise string :=
  match rsp with
  | RArr items =>
      match head items with
      | Some (RArr chunks) =>
          let translatedText := join EmptyString (map chunkText chunks) in
          resolve translatedText
      | _ => reject unexpectedResponse
      end
  | _ => reject unexpectedResponse
  end.

Section SingleCall.
Variable axios : AxiosRequest → Error + RawReply.
Variable getToken : string → Error + string.
Variable stringify : list (string * QueryValue) → string.
Variable wrapUrlToCorsProxy : string → string.
Variable optionsHeaders : list (string * string).

(** Lines 100-144; [axios.get(url, config)] is [axios] with the method GET. *)
Definition translateTokenAuthorized (text : string) (from to : string) : Promise string :=
  andThen (settled (getToken text)) (λ tk,
    let apiPath := "https://translate.google.com/translate_a/single" in
    let data :=
      [ ("client", QString "t");
        ("sl", QString (getFixedLanguage from));
        ("tl", QString (getFixedLanguage to));
        ("hl", QString (getFixedLanguage to));
        ("dt", QStrings ["at"; "bd"; "ex"; "ld"; "md"; "qca"; "rw"; "rm"; "ss"; "t"]);
        ("ie", QString "UTF-8");
        ("oe", QString "UTF-8");
        ("otf", QNumber 1);
        ("ssel", QNumber 0);
        ("tsel", QNumber 0);
        ("kc", QNumber 7);
        ("q", QString text);
        ("tk", QString tk) ] in
    let url := apiPath +:+ "?" +:+ stringify data in
    andThen
      (settled (axios
         {| url := wrapUrlToCorsProxy url;
            method := GET;
            withCredentials := false;
            headers := optionsHeaders;
            data := None |}))
      decodeSingle).
End SingleCall.

(** ** Sample collaborators *)

(** Collaborators for the examples: a transport that delivers one reply
    whatever it is asked and one that fails, a token service that grants a
    token and one that refuses, and a query serializer that writes nothing. *)
Definition delivering (rawResp : RawReply) : AxiosRequest → Error + RawReply :=
  λ _, inr rawResp.
Definition failing (err : Error) : AxiosRequest → Error + RawReply :=
  λ _, inl err.
Definition granting : string → Error + string := λ _, inr "tk".
Definition refusing (err : Error) : string → Error + string := λ _, inl err.
Definition noQuery : list (string * QueryValue) → string := λ _, EmptyString.

(** ** Notions the properties are stated with *)

(** The token service answers whatever it is asked. *)
Definition tokenGranted (getToken : string → Error + string) : Prop :=
  ∀ input, ∃ tk, getToken input = inr tk.

(** The transport delivers the reply [rawResp]. *)
Definition delivers (axios : AxiosRequest → Error + RawReply) (rawResp : RawReply) : Prop :=
  ∀ request, axios request = inr rawResp.

(** The transport fails with the error [err]. *)
Definition transportFails (axios : AxiosRequest → Error + RawReply) (err : Error) : Prop :=
  ∀ request, axios request = inl err.

(** The string a chunk of a single-text reply starts with, if it is an array
    that starts with one. *)
Definition leadingString (chunk : RawReply) : option string :=
  match chunk with
  | RArr (RStr s :: _) => Some s
  | _ => None
  end.

(** A text without the character that opens a tag. *)
Definition noTagOpen (text : string) : Prop :=
  Forall (λ c, Ascii.eqb "<" c = false) (list_ascii_of_string text).

(** The entries at the even positions 0, 2, 4, ... of a list. *)
Fixpoint evenPositions {A} (l : list A) : list A :=
  match l with
  | [] => []
  | [x] => [x]
  | x :: _ :: l' => x :: evenPositions l'
  end.

(** Whether a node is an element in no namespace whose local name is
    [name] but for the letter case; [name] is given in lower case. *)
Definition hasName {A} (name : string) (n : Node A) : bool :=
  match n with
  | Element _ namespaceURI tagName _ _ =>
      String.eqb namespaceURI EmptyString && String.eqb (toLowerCase (testedName tagName)) name
  | _ => false
  end.

(** The nodes that the expression [translatedTextPath] reaches, serialized,
    read off the tree in one pass and in document order: the text nodes and
    CDATA sections lying, at any depth, inside an element other than [i]
    whose parent is a [pre] element. [parentIsPre] tells whether the parent
    of the node is a [pre] element, [inside] whether the node already lies
    inside such an element. *)
Fixpoint translatedTexts {A} (parentIsPre inside : bool) (n : Node A) : list string :=
  match n with
  | Element _ _ _ _ kids =>
      let inside' := inside || (parentIsPre && negb (hasName "i" n)) in
      flat_map (translatedTexts (hasName "pre" n) inside') kids
  | Text _ _ | CDATASection _ _ => if inside then [toString n] else []
  | Comment _ _ | ProcessingInstruction _ _ _ => []
  end.

Definition translatedTextsOf {A} (doc : Document A) : list string :=
  flat_map (translatedTexts false false) (documentNodes doc).

(** All the text nodes and CDATA sections of a subtree, serialized, in
    document order. *)
Fixpoint textsOf {A} (n : Node A) : list string :=
  match n with
  | Element _ _ _ _ kids => flat_map textsOf kids
  | Text _ _ | CDATASection _ _ => [toString n]
  | Comment _ _ | ProcessingInstruction _ _ _ => []
  end.

(** Whether a subtree holds a [pre] element. *)
Fixpoint containsPre {A} (n : Node A) : bool :=
  match n with
  | Element _ _ _ _ kids => hasName "pre" n || existsb containsPre kids
  | _ => false
  end.

(** What one child of the container contributes: nothing unless it is an
    element, nothing when it is an [i] element, else the text below it. *)
Definition childTexts {A} (child : Node A) : list string :=
  match child with
  | Element _ _ _ _ kids => if hasName "i" child then [] else flat_map textsOf kids
  | _ => []
  end.

(** The decoder as section 4.2 of the specification words it: the
    concatenation of all the text content under the container element, the
    children tagged as annotation left out, and no extracted text when
    parsing fails or nothing is found. *)
Fixpoint textContent {A} (n : Node A) : string :=
  match n with
  | Element _ _ _ _ kids => String.concat EmptyString (map textContent kids)
  | Text _ data | CDATASection _ data => data
  | Comment _ _ | ProcessingInstruction _ _ _ => EmptyString
  end.

Definition isAnnotation {A} (n : Node A) : bool :=
  match n with
  | Element _ _ tagName _ _ => String.eqb tagName "i"
  | _ => false
  end.

Definition describedDecodeOf {A} (parsed : option (Document A)) : option string :=
  match parsed with
  | Some (mkDocument _ [Element _ _ tagName _ kids]) =>
      if String.eqb tagName "pre" then
        let content :=
          String.concat EmptyString
            (map textContent (List.filter (λ kid, negb (isAnnotation kid)) kids)) in
        if String.eqb content EmptyString then None else Some content
      else None
  | _ => None
  end.

Definition describedDecode (text : string) : option string :=
  describedDecodeOf (DOMParser.parseFromString text).

(** An [Error] holds nothing but its message, so an error that carries a
    count has the decimal numeral of that count somewhere in its message. *)
Definition mentionsCount (e : Error) (count : nat) : bool :=
  match index 0 (numberToString count) (message e) with
  | Some _ => true
  | None => false
  end.

(** What a batch weighs once encoded: per segment the 23 characters of the
    wrapper, the digits of its index, and its text. *)
Definition encodedLength (textList : list string) : nat :=
  sum_list
    (imap (λ i text, 23 + String.length (numberToString i) + String.length text) textList).

Definition isDigit (c : ascii) : bool :=
  (48 <=? nat_of_ascii c) && (nat_of_ascii c <=? 57).

(** The characters that the parser and the serializer treat specially
    inside character data: the markup characters <, > and &, and the line
    breaks that the parser normalizes (carriage return, next line). *)
Definition isMarkupSpecial (c : ascii) : bool :=
  (c =? "<")%char || (c =? ">")%char || (c =? "&")%char
  || (c =? "013")%char || (c =? "133")%char.

Definition noMarkupSpecial (text : string) : Prop :=
  Forall (λ c, isMarkupSpecial c = false) (list_ascii_of_string text).

(** * Properties *)

(** ** The traversal *)

Section RawReply_induction.
Variable P : RawReply → Prop.
Hypothesis Hnull : P RNull.
Hypothesis Hbool : ∀ b, P (RBool b).
Hypothesis Hnum : ∀ n, P (RNum n).
Hypothesis Hstr : ∀ s, P (RStr s).
Hypothesis Harr : ∀ items, Forall P items → P (RArr items).
Hypothesis Hobj : ∀ fields, P (RObj fields).

Fixpoint RawReply_nested_ind (v : RawReply) : P v :=
  match v with
  | RNull => Hnull
  | RBool b => Hbool b
  | RNum n => Hnum n
  | RStr s => Hstr s
  | RArr items =>
      Harr items
        ((fix go (l : list RawReply) : Forall P l :=
            match l with
            | [] => List.Forall_nil P
            | x :: l' => List.Forall_cons P x l' (RawReply_nested_ind x) (go l')
            end) items)
  | RObj fields => Hobj fields
  end.
End RawReply_induction.

Lemma foldl_flat_map {A B S} (f : A → list B) (g : S → B → S) (h : S → A → S) l :
  Forall (λ a, ∀ s, h s a = foldl g s (f a)) l →
  ∀ s, foldl h s l = foldl g s (flat_map f l).
Proof.
  induction 1 as [|a l Ha _ IH]; intros s; simpl; [done|].
  by rewrite foldl_app, Ha, IH.
Qed.

(** A visit is a left fold of the visitor over the leaves. *)
Lemma visitItem_leaves {S} (visitor : RawReply → S → S) obj :
  ∀ s, visitItem visitor obj s = foldl (λ s o, visitor o s) s (leavesOf obj).
Proof.
  induction obj as [| | | |items IH|] using RawReply_nested_ind; intros st; try done.
  simpl. by apply foldl_flat_map.
Qed.

Lemma visitArrayItems_leaves {S} (visitor : RawReply → S → S) arr s :
  visitArrayItems arr visitor s = foldl (λ s o, visitor o s) s (flattenedLeaves arr).
Proof.
  unfold visitArrayItems, flattenedLeaves. apply foldl_flat_map.
  apply Forall_forall. intros obj _ s'. apply visitItem_leaves.
Qed.

Lemma collectString_leaves leaves acc :
  foldl (λ s o, collectString o s) acc leaves = acc ++ omap asString leaves.
Proof.
  revert acc. induction leaves as [|o leaves IH]; intros acc; simpl.
  - by rewrite app_nil_r.
  - rewrite IH. destruct o; simpl; try done. by rewrite <- app_assoc.
Qed.

Lemma collected_stringLeaves arr :
  visitArrayItems arr collectString [] = stringLeaves arr.
Proof. by rewrite visitArrayItems_leaves, collectString_leaves. Qed.

(** ** Variant B *)

Lemma evenPositions_cons {A} (x : A) l :
  evenPositions (x :: l) = x :: evenPositions (tail l).
Proof. by destruct l. Qed.

Lemma evenPositions_lookup {A} (l : list A) i :
  evenPositions l !! i = l !! (2 * i).
Proof.
  revert l. induction i as [|i IH]; intros [|x [|y l]]; try done.
  simpl. rewrite IH. by replace (i + S (i + 0)) with (S (2 * i)) by lia.
Qed.

Lemma evenPositions_length {A} (l : list A) n :
  length l = 2 * n → length (evenPositions l) = n.
Proof.
  revert l. induction n as [|n IH]; intros [|x [|y l]] Hl; simpl in *; try lia.
  f_equal. apply IH. lia.
Qed.

(** Outside the two special modes the loop keeps the entries whose index is
    even. *)
Lemma forIn_parity entries : ∀ idx result,
  forIn false false idx entries result =
  result ++ evenPositions (if idx mod 2 =? 0 then entries else tail entries).
Proof.
  induction entries as [|text rest IH]; intros idx result; cbn [forIn orb].
  - destruct (idx mod 2 =? 0); cbn [tail evenPositions]; by rewrite app_nil_r.
  - rewrite IH.
    assert (Hpar : (S idx mod 2 =? 0) = negb (idx mod 2 =? 0)).
    { pose proof (Nat.mod_upper_bound idx 2).
      pose proof (Nat.mod_upper_bound (S idx) 2).
      pose proof (Nat.div_mod_eq idx 2). pose proof (Nat.div_mod_eq (S idx) 2).
      destruct (Nat.eqb_spec (idx mod 2) 0), (Nat.eqb_spec (S idx mod 2) 0);
        cbn [negb]; try done; lia. }
    rewrite Hpar. destruct (idx mod 2 =? 0); cbn [negb tail].
    + rewrite <- app_assoc. cbn [app]. by rewrite evenPositions_cons.
    + done.
Qed.

(** In single-response mode the loop stops after the first entry. *)
Lemma forIn_single oneToOne idx text rest result :
  forIn true oneToOne idx (text :: rest) result = result ++ [text].
Proof. done. Qed.

(** In one-to-one mode every entry is kept. *)
Lemma forIn_oneToOne entries : ∀ idx result,
  forIn false true idx entries result = result ++ entries.
Proof.
  induction entries as [|text rest IH]; intros idx result; simpl.
  - by rewrite app_nil_r.
  - rewrite IH. by rewrite <- app_assoc.
Qed.

Lemma decodeTokenFree_array text arr :
  decodeTokenFree text (RArr arr) =
  if length (reconcileTokenFree text arr) =? length text
  then resolve (reconcileTokenFree text arr)
  else ([WarnResult "Translation result" (reconcileTokenFree text arr);
         WarnReply "Got response" (RArr arr)], inl mismatchingLengths).
Proof.
  unfold decodeTokenFree. simpl.
  by destruct (length (reconcileTokenFree text arr) =? length text).
Qed.

(** More than one segment and twice as many string leaves: the handler keeps
    the leaves at the even positions. *)
Lemma decodeTokenFree_parity_filter (text : list string) (arr : list RawReply) :
  1 < length text →
  length (stringLeaves arr) = 2 * length text →
  ∃ result,
    decodeTokenFree text (RArr arr) = resolve result
    ∧ length result = length text
    ∧ ∀ i, result !! i = stringLeaves arr !! (2 * i).
Proof.
  intros HN HM. exists (evenPositions (stringLeaves arr)).
  assert (Hrec : reconcileTokenFree text arr = evenPositions (stringLeaves arr)).
  { unfold reconcileTokenFree. rewrite collected_stringLeaves.
    replace (length text =? 1) with false by (symmetry; apply Nat.eqb_neq; lia).
    replace (length (stringLeaves arr) =? length text) with false
      by (symmetry; apply Nat.eqb_neq; lia).
    by rewrite forIn_parity. }
  assert (Hlen : length (evenPositions (stringLeaves arr)) = length text)
    by by apply evenPositions_length.
  split; [|split; [done|]].
  - rewrite decodeTokenFree_array, Hrec, Hlen. by rewrite Nat.eqb_refl.
  - intros i. apply evenPositions_lookup.
Qed.

(** One segment: the handler takes the first string leaf. *)
Lemma decodeTokenFree_single (text : list string) (arr : list RawReply)
    (first : string) (others : list string) :
  length text = 1 →
  stringLeaves arr = first :: others →
  decodeTokenFree text (RArr arr) = resolve [first].
Proof.
  intros HN Hleaves.
  assert (Hrec : reconcileTokenFree text arr = [first]).
  { unfold reconcileTokenFree. rewrite collected_stringLeaves, Hleaves, HN. done. }
  rewrite decodeTokenFree_array, Hrec, HN. done.
Qed.

(** ** Variant A *)

Lemma decodeTokenAuthorized_array text arr :
  decodeTokenAuthorized text (RArr arr) =
  if length (reconcileTokenAuthorized text arr) =? length text
  then resolve (reconcileTokenAuthorized text arr)
  else ([WarnReply "Got response" (RArr arr)], inl mismatchingLengths).
Proof.
  unfold decodeTokenAuthorized. simpl.
  by destruct (length (reconcileTokenAuthorized text arr) =? length text).
Qed.

(** Outside single-response mode the visitor appends the decoded text of
    each string leaf that decodes. *)
Lemma decodeLeaf_batch leaves : ∀ result,
  foldl (λ s o, decodeLeaf false o s) result leaves =
  result ++ omap parseXMLResponse (omap asString leaves).
Proof.
  induction leaves as [|o leaves IH]; intros result; simpl.
  - by rewrite app_nil_r.
  - rewrite IH. unfold decodeLeaf. simpl.
    destruct o as [| | |s| |]; simpl; try done.
    destruct (parseXMLResponse s); simpl; [|done].
    by rewrite <- app_assoc.
Qed.

(** More than one segment: the handler keeps the decoded text of the string
    leaves that decode. *)
Lemma decodeTokenAuthorized_batch (text : list string) (arr : list RawReply) :
  1 < length text →
  let kept := omap parseXMLResponse (stringLeaves arr) in
  reconcileTokenAuthorized text arr = kept
  ∧ decodeTokenAuthorized text (RArr arr) =
      if length kept =? length text then resolve kept
      else ([WarnReply "Got response" (RArr arr)], inl mismatchingLengths).
Proof.
  intros HN kept.
  assert (Hrec : reconcileTokenAuthorized text arr = kept).
  { unfold reconcileTokenAuthorized.
    replace (length text =? 1) with false by (symmetry; apply Nat.eqb_neq; lia).
    by rewrite visitArrayItems_leaves, decodeLeaf_batch. }
  split; [done|]. by rewrite decodeTokenAuthorized_array, Hrec.
Qed.

(** ** The shape guard and the length check *)

Lemma decode_not_array text rawResp :
  isArray rawResp = false →
  decodeTokenAuthorized text rawResp =
    ([WarnReply "Got response" rawResp], inl unexpectedResponse)
  ∧ decodeTokenFree text rawResp =
    ([WarnReply "Got response" rawResp], inl unexpectedResponse).
Proof. by destruct rawResp. Qed.

(** A reply handler resolves only with as many strings as segments. *)
Lemma decodeTokenAuthorized_resolved text rawResp w result :
  decodeTokenAuthorized text rawResp = (w, inr result) → length result = length text.
Proof.
  destruct rawResp as [| | | |arr|]; try done.
  rewrite decodeTokenAuthorized_array.
  destruct (Nat.eqb_spec (length (reconcileTokenAuthorized text arr)) (length text));
    [|done].
  unfold resolve. congruence.
Qed.

Lemma decodeTokenFree_resolved text rawResp w result :
  decodeTokenFree text rawResp = (w, inr result) → length result = length text.
Proof.
  destruct rawResp as [| | | |arr|]; try done.
  rewrite decodeTokenFree_array.
  destruct (Nat.eqb_spec (length (reconcileTokenFree text arr)) (length text));
    [|done].
  unfold resolve. congruence.
Qed.

Lemma andThen_settled_resolved {A B} (r : Error + A) (k : A → Promise B) w b :
  andThen (settled r) k = (w, inr b) → ∃ a, r = inr a ∧ k a = (w, inr b).
Proof.
  destruct r as [e|a]; simpl; [done|].
  destruct (k a) as [w' r'] eqn:Hk. intros [= <- ->]. eauto.
Qed.

Lemma message_has_no_digit (e : Error) (count : nat) :
  Forall (λ c, isDigit c = false) (list_ascii_of_string (message e)) →
  mentionsCount e count = false.
Proof.
  intros Hno. unfold mentionsCount.
  destruct (index 0 (numberToString count) (message e)) as [m|] eqn:Hidx; [|done].
  exfalso. apply index_correct1 in Hidx.
  assert (Hfirst : ∃ d rest, numberToString count = String d rest ∧ isDigit d = true).
  { unfold numberToString. destruct (Nat.to_uint count) eqn:Hu; simpl; eauto.
    pose proof (Unsigned.of_to count) as Hback. rewrite Hu in Hback.
    simpl in Hback. by subst count. }
  destruct Hfirst as (d & rest & Hnum & Hd). rewrite Hnum in Hidx.
  assert (Hin : ∀ s m n c r, substring m n s = String c r → c ∈ list_ascii_of_string s).
  { clear. induction s as [|a s IH]; intros [|m] [|n] c r; simpl; try done.
    - intros [= -> _]. apply list_elem_of_here.
    - intros H. apply list_elem_of_further. by eapply IH.
    - intros H. apply list_elem_of_further. by eapply IH. }
  apply Hin in Hidx. rewrite Forall_forall in Hno. apply Hno in Hidx. congruence.
Qed.

Lemma mismatchingLengths_mentions_no_count (count : nat) :
  mentionsCount mismatchingLengths count = false.
Proof.
  apply message_has_no_digit. simpl.
  repeat (apply List.Forall_cons; [reflexivity|]). apply List.Forall_nil.
Qed.

Lemma andThen_settled_delivered {A B} (a : A) (k : A → Promise B) :
  andThen (settled (inr a)) k = k a.
Proof. unfold andThen, settled. by destruct (k a). Qed.

Section CallProperties.
Variable axios : AxiosRequest → Error + RawReply.
Variable getToken : string → Error + string.
Variable stringify : list (string * QueryValue) → string.
Variable encodeURIComponent : string → string.
Variable wrapUrlToCorsProxy : string → string.
Variable optionsHeaders : list (string * string).

Local Abbreviation batchA :=
  (translateBatchTokenAuthorized axios getToken stringify encodeURIComponent
     wrapUrlToCorsProxy optionsHeaders).
Local Abbreviation batchB :=
  (translateBatchTokenFree axios stringify wrapUrlToCorsProxy optionsHeaders).

Lemma translateBatchTokenAuthorized_resolved text from to w result :
  batchA text from to = (w, inr result) → length result = length text.
Proof.
  unfold translateBatchTokenAuthorized. intros H.
  apply andThen_settled_resolved in H as (tk & _ & H).
  apply andThen_settled_resolved in H as (rawResp & _ & H).
  by eapply decodeTokenAuthorized_resolved.
Qed.

Lemma translateBatchTokenFree_resolved text from to w result :
  batchB text from to = (w, inr result) → length result = length text.
Proof.
  unfold translateBatchTokenFree. intros H.
  apply andThen_settled_resolved in H as (rawResp & _ & H).
  by eapply decodeTokenFree_resolved.
Qed.

(** Once the token service has answered and the transport has delivered a
    reply, the call is the reply handler on that reply. *)
Lemma translateBatchTokenAuthorized_delivered text from to rawResp :
  tokenGranted getToken → delivers axios rawResp →
  batchA text from to = decodeTokenAuthorized text rawResp.
Proof.
  intros Htoken Hreply. unfold translateBatchTokenAuthorized.
  destruct (Htoken (join EmptyString (encodeForBatch text))) as [tk ->].
  by rewrite andThen_settled_delivered, Hreply, andThen_settled_delivered.
Qed.

Lemma translateBatchTokenFree_delivered text from to rawResp :
  delivers axios rawResp →
  batchB text from to = decodeTokenFree text rawResp.
Proof.
  intros Hreply. unfold translateBatchTokenFree.
  by rewrite Hreply, andThen_settled_delivered.
Qed.

(** C2. Variant B, more than one segment, twice as many string leaves in
    the delivered reply as segments: the call yields one string per segment,
    the i-th being the string leaf at position 2*i, so that the leaves at odd
    positions are left out. *)
Theorem tokenFree_parity_filter (text : list string) (from to : string)
    (arr : list RawReply) :
  delivers axios (RArr arr) →
  1 < length text →
  length (stringLeaves arr) = 2 * length text →
  ∃ result,
    translateBatchTokenFree axios stringify wrapUrlToCorsProxy optionsHeaders
      text from to = resolve result
    ∧ length result = length text
    ∧ ∀ i, result !! i = stringLeaves arr !! (2 * i).
Proof.
  intros Hreply HN HM.
  rewrite (translateBatchTokenFree_delivered _ _ _ _ Hreply).
  by apply decodeTokenFree_parity_filter.
Qed.

(** C4. Variant B with exactly one segment: the result is the one-element
    list holding the first string leaf of the delivered reply; whatever
    string leaves follow it are ignored. *)
Theorem tokenFree_single_takes_first (text : list string) (from to : string)
    (arr : list RawReply) (first : string) (others : list string) :
  delivers axios (RArr arr) →
  length text = 1 →
  stringLeaves arr = first :: others →
  translateBatchTokenFree axios stringify wrapUrlToCorsProxy optionsHeaders
    text from to = resolve [first].
Proof.
  intros Hreply HN Hleaves.
  rewrite (translateBatchTokenFree_delivered _ _ _ _ Hreply).
  by eapply decodeTokenFree_single.
Qed.

(** C3. Variant A, more than one segment: every string leaf of the delivered
    reply goes through the decoder; the reconciled list holds, in order, the
    decoded text of exactly the leaves whose decoding is not null, and a
    leaf whose decoding is null leaves no entry and raises nothing: the call
    only depends on the number of entries kept. *)
Theorem tokenAuthorized_keeps_decoded (text : list string) (from to : string)
    (arr : list RawReply) :
  tokenGranted getToken →
  delivers axios (RArr arr) →
  1 < length text →
  let kept := omap parseXMLResponse (stringLeaves arr) in
  reconcileTokenAuthorized text arr = kept
  ∧ translateBatchTokenAuthorized axios getToken stringify encodeURIComponent
      wrapUrlToCorsProxy optionsHeaders text from to =
      if length kept =? length text then resolve kept
      else ([WarnReply "Got response" (RArr arr)], inl mismatchingLengths).
Proof.
  intros Htoken Hreply HN.
  rewrite (translateBatchTokenAuthorized_delivered _ _ _ _ Htoken Hreply).
  by apply decodeTokenAuthorized_batch.
Qed.

(** C1, as the code has it. Under both variants a call that resolves
    yields exactly as many strings as it was given segments, and a call
    whose reply reconciles to a list of any other length rejects. The
    rejection is the one fixed error "Mismatching a lengths of original
    and translated arrays": its message holds no count at all, neither the
    expected nor the actual one. What is written out is the reply, and
    under Variant B the reconciled list, on the console. *)
Theorem translateBatch_length_enforced (text : list string) (from to : string) :
  (∀ w result,
     translateBatchTokenAuthorized axios getToken stringify encodeURIComponent
       wrapUrlToCorsProxy optionsHeaders text from to = (w, inr result) →
     length result = length text)
  ∧ (∀ w result,
       translateBatchTokenFree axios stringify wrapUrlToCorsProxy optionsHeaders
         text from to = (w, inr result) →
       length result = length text)
  ∧ (∀ arr,
       tokenGranted getToken → delivers axios (RArr arr) →
       length (reconcileTokenAuthorized text arr) ≠ length text →
       translateBatchTokenAuthorized axios getToken stringify encodeURIComponent
         wrapUrlToCorsProxy optionsHeaders text from to =
         ([WarnReply "Got response" (RArr arr)], inl mismatchingLengths))
  ∧ (∀ arr,
       delivers axios (RArr arr) →
       length (reconcileTokenFree text arr) ≠ length text →
       translateBatchTokenFree axios stringify wrapUrlToCorsProxy optionsHeaders
         text from to =
         ([WarnResult "Translation result" (reconcileTokenFree text arr);
           WarnReply "Got response" (RArr arr)], inl mismatchingLengths))
  ∧ (∀ count, mentionsCount mismatchingLengths count = false).
Proof.
  split; [|split; [|split; [|split]]].
  - intros w result. apply translateBatchTokenAuthorized_resolved.
  - intros w result. apply translateBatchTokenFree_resolved.
  - intros arr Htoken Hreply Hne.
    rewrite (translateBatchTokenAuthorized_delivered _ _ _ _ Htoken Hreply).
    rewrite decodeTokenAuthorized_array.
    by destruct (Nat.eqb_spec (length (reconcileTokenAuthorized text arr)) (length text)).
  - intros arr Hreply Hne.
    rewrite (translateBatchTokenFree_delivered _ _ _ _ Hreply).
    rewrite decodeTokenFree_array.
    by destruct (Nat.eqb_spec (length (reconcileTokenFree text arr)) (length text)).
  - apply mismatchingLengths_mentions_no_count.
Qed.

(** C5, as the code has it. A reply that is not an array makes both calls
    reject with the error "Unexpected response" before any leaf is looked
    at. An empty array passes that guard and is reconciled like any other
    array: no leaf is kept, so the length check rejects the call with the
    error "Mismatching a lengths of original and translated arrays" for a
    batch of at least one segment, and the call resolves with the empty
    list for the empty batch. *)
Theorem reply_shape_guard (text : list string) (from to : string) (rawResp : RawReply) :
  tokenGranted getToken →
  delivers axios rawResp →
  (isArray rawResp = false →
     translateBatchTokenAuthorized axios getToken stringify encodeURIComponent
       wrapUrlToCorsProxy optionsHeaders text from to =
       ([WarnReply "Got response" rawResp], inl unexpectedResponse)
     ∧ translateBatchTokenFree axios stringify wrapUrlToCorsProxy optionsHeaders
         text from to =
       ([WarnReply "Got response" rawResp], inl unexpectedResponse))
  ∧ (rawResp = RArr [] →
       translateBatchTokenAuthorized axios getToken stringify encodeURIComponent
         wrapUrlToCorsProxy optionsHeaders text from to =
         (if length text =? 0 then resolve []
          else ([WarnReply "Got response" (RArr [])], inl mismatchingLengths))
       ∧ translateBatchTokenFree axios stringify wrapUrlToCorsProxy optionsHeaders
           text from to =
         (if length text =? 0 then resolve []
          else ([WarnResult "Translation result" [];
                 WarnReply "Got response" (RArr [])], inl mismatchingLengths))).
Proof.
  intros Htoken Hreply.
  rewrite (translateBatchTokenAuthorized_delivered _ _ _ _ Htoken Hreply).
  rewrite (translateBatchTokenFree_delivered _ _ _ _ Hreply).
  split; [apply decode_not_array|]. intros ->.
  rewrite decodeTokenAuthorized_array, decodeTokenFree_array.
  by destruct text.
Qed.

(** C10. The single-segment call of the token-free translator is its batch
    call on the one-element list: it writes the same console lines, rejects
    with the same error when the batch call rejects, and otherwise the
    batch call resolved with exactly one string, which is the result. *)
Theorem translateTokenFree_is_batch_of_one (text : string) (from to : string) :
  let single :=
    translateTokenFree axios stringify wrapUrlToCorsProxy optionsHeaders text from to in
  let batch :=
    translateBatchTokenFree axios stringify wrapUrlToCorsProxy optionsHeaders
      [text] from to in
  single.1 = batch.1
  ∧ match batch.2 with
    | inl err => single.2 = inl err
    | inr result =>
        ∃ translation, result = [translation] ∧ single.2 = inr (Some translation)
    end.
Proof.
  unfold translateTokenFree.
  destruct (batchB [text] from to) as [w [err|batch]] eqn:Hbatch; simpl.
  - done.
  - apply translateBatchTokenFree_resolved in Hbatch.
    destruct batch as [|translation [|? ?]]; try done.
    split; [by rewrite app_nil_r|]. by exists translation.
Qed.
End CallProperties.

Lemma tokenFree_parity_filter_witness :
  ∃ result,
    translateBatchTokenFree
      (λ _, inr (RArr [RArr [RStr "uno"; RStr "one"]; RNull;
                       RArr [RStr "dos"; RStr "two"]]))
      (λ _, EmptyString) id [] ["one"; "two"] "en" "es" = resolve result
    ∧ length result = 2
    ∧ ∀ i, result !! i = ["uno"; "one"; "dos"; "two"] !! (2 * i).
Proof.
  apply (tokenFree_parity_filter
           (λ _, inr (RArr [RArr [RStr "uno"; RStr "one"]; RNull;
                            RArr [RStr "dos"; RStr "two"]]))
           (λ _, EmptyString) id [] ["one"; "two"] "en" "es"
           [RArr [RStr "uno"; RStr "one"]; RNull; RArr [RStr "dos"; RStr "two"]]).
  - intros request. reflexivity.
  - simpl. lia.
  - reflexivity.
Defined.

(** The scenario of the specification: the reply [["salut", "hi"]] to the
    batch [["hi"]]. *)
Lemma tokenFree_single_takes_first_witness :
  translateBatchTokenFree (λ _, inr (RArr [RStr "salut"; RStr "hi"]))
    (λ _, EmptyString) id [] ["hi"] "en" "fr" = resolve ["salut"].
Proof.
  apply (tokenFree_single_takes_first (λ _, inr (RArr [RStr "salut"; RStr "hi"]))
           (λ _, EmptyString) id [] ["hi"] "en" "fr"
           [RStr "salut"; RStr "hi"] "salut" ["hi"]).
  - intros request. reflexivity.
  - reflexivity.
  - reflexivity.
Defined.

(** The scenario of the specification: the batch [["hello", "world"]] and a
    reply with the two fragments that wrap "bonjour" and "monde". *)
Lemma tokenAuthorized_keeps_decoded_witness :
  let arr :=
    [ RArr [RStr (encodeSegment 0 "bonjour"); RStr "fr"];
      RNum 2;
      RArr [RStr (encodeSegment 1 "monde")] ] in
  reconcileTokenAuthorized ["hello"; "world"] arr = ["bonjour"; "monde"]
  ∧ translateBatchTokenAuthorized (λ _, inr (RArr arr)) (λ _, inr "tk")
      (λ _, EmptyString) id id [] ["hello"; "world"] "en" "fr" =
    resolve ["bonjour"; "monde"].
Proof.
  refine (tokenAuthorized_keeps_decoded
            (λ _, inr (RArr [ RArr [RStr (encodeSegment 0 "bonjour"); RStr "fr"];
                              RNum 2;
                              RArr [RStr (encodeSegment 1 "monde")] ]))
            (λ _, inr "tk") (λ _, EmptyString) id id [] ["hello"; "world"] "en" "fr"
            [ RArr [RStr (encodeSegment 0 "bonjour"); RStr "fr"];
              RNum 2;
              RArr [RStr (encodeSegment 1 "monde")] ] _ _ _).
  - intros input. exists "tk". reflexivity.
  - intros request. reflexivity.
  - simpl. lia.
Defined.

Lemma translateBatch_length_enforced_witness :
  translateBatchTokenFree (λ _, inr (RArr [RStr "uno"])) (λ _, EmptyString) id []
    ["one"; "two"] "en" "es" =
    ([WarnResult "Translation result" ["uno"];
      WarnReply "Got response" (RArr [RStr "uno"])], inl mismatchingLengths)
  ∧ translateBatchTokenAuthorized (λ _, inr (RArr [RStr "uno"])) (λ _, inr "tk")
      (λ _, EmptyString) id id [] ["one"; "two"] "en" "es" =
    ([WarnReply "Got response" (RArr [RStr "uno"])], inl mismatchingLengths).
Proof.
  split.
  - refine (proj1 (proj2 (proj2 (proj2
      (translateBatch_length_enforced (λ _, inr (RArr [RStr "uno"])) (λ _, inr "tk")
         (λ _, EmptyString) id id [] ["one"; "two"] "en" "es")))) [RStr "uno"] _ _).
    + intros request. reflexivity.
    + vm_compute. lia.
  - refine (proj1 (proj2 (proj2
      (translateBatch_length_enforced (λ _, inr (RArr [RStr "uno"])) (λ _, inr "tk")
         (λ _, EmptyString) id id [] ["one"; "two"] "en" "es"))) [RStr "uno"] _ _ _).
    + intros input. exists "tk". reflexivity.
    + intros request. reflexivity.
    + vm_compute. lia.
Defined.

(** C1 as the specification states it fails: the reply [["uno"]] to the
    batch [["one", "two"]] reconciles to one entry where two are expected,
    and the error of the rejection mentions neither count. *)
Lemma LengthMismatch_carries_no_counts :
  ∃ err,
    (decodeTokenFree ["one"; "two"] (RArr [RStr "uno"])).2 = inl err
    ∧ length (reconcileTokenFree ["one"; "two"] [RStr "uno"]) = 1
    ∧ mentionsCount err 2 = false
    ∧ mentionsCount err 1 = false.
Proof. exists mismatchingLengths. repeat split; vm_compute; done. Qed.

Lemma reply_shape_guard_witness :
  (translateBatchTokenAuthorized (λ _, inr (RObj [("error", RStr "quota")]))
     (λ _, inr "tk") (λ _, EmptyString) id id [] ["hi"] "en" "fr" =
     ([WarnReply "Got response" (RObj [("error", RStr "quota")])], inl unexpectedResponse)
   ∧ translateBatchTokenFree (λ _, inr (RObj [("error", RStr "quota")]))
       (λ _, EmptyString) id [] ["hi"] "en" "fr" =
     ([WarnReply "Got response" (RObj [("error", RStr "quota")])], inl unexpectedResponse))
  ∧ (translateBatchTokenAuthorized (λ _, inr (RArr []))
       (λ _, inr "tk") (λ _, EmptyString) id id [] ["hi"] "en" "fr" =
       ([WarnReply "Got response" (RArr [])], inl mismatchingLengths)
     ∧ translateBatchTokenFree (λ _, inr (RArr []))
         (λ _, EmptyString) id [] ["hi"] "en" "fr" =
       ([WarnResult "Translation result" []; WarnReply "Got response" (RArr [])],
        inl mismatchingLengths)).
Proof.
  split.
  - refine (proj1 (reply_shape_guard (λ _, inr (RObj [("error", RStr "quota")]))
              (λ _, inr "tk") (λ _, EmptyString) id id [] ["hi"] "en" "fr"
              (RObj [("error", RStr "quota")]) _ _) _).
    + intros input. exists "tk". reflexivity.
    + intros request. reflexivity.
    + reflexivity.
  - refine (proj2 (reply_shape_guard (λ _, inr (RArr []))
              (λ _, inr "tk") (λ _, EmptyString) id id [] ["hi"] "en" "fr"
              (RArr []) _ _) _).
    + intros input. exists "tk". reflexivity.
    + intros request. reflexivity.
    + reflexivity.
Defined.

(** C5 as the specification states it fails on the empty array: the reply
    [[]] to the batch [["hi"]] is rejected by the length check, with an error
    other than "Unexpected response". *)
Lemma empty_array_is_not_UnexpectedShape :
  (decodeTokenAuthorized ["hi"] (RArr [])).2 = inl mismatchingLengths
  ∧ (decodeTokenFree ["hi"] (RArr [])).2 = inl mismatchingLengths
  ∧ mismatchingLengths ≠ unexpectedResponse.
Proof. repeat split; done. Qed.

(** ** The language codes *)

Lemma fixedLanguagesMap_lookup (lang : string) :
  fixedLanguagesMap !! lang =
  if String.eqb lang "he" then Some "iw"
  else if String.eqb lang "jv" then Some "jw" else None.
Proof.
  unfold fixedLanguagesMap.
  destruct (String.eqb_spec lang "he") as [->|Hhe]; [done|].
  rewrite lookup_insert_ne by done.
  destruct (String.eqb_spec lang "jv") as [->|Hjv]; [done|].
  by rewrite lookup_singleton_ne.
Qed.

(** C9. [getFixedLanguage] sends zh to zh-CN, he to iw and jv to jw, returns
    every other code as it is, and applying it twice is applying it once. *)
Theorem getFixedLanguage_fixup :
  getFixedLanguage "zh" = "zh-CN"
  ∧ getFixedLanguage "he" = "iw"
  ∧ getFixedLanguage "jv" = "jw"
  ∧ (∀ lang, lang ≠ "zh" → lang ≠ "he" → lang ≠ "jv" → getFixedLanguage lang = lang)
  ∧ (∀ lang, getFixedLanguage (getFixedLanguage lang) = getFixedLanguage lang).
Proof.
  assert (Hother : ∀ lang, lang ≠ "zh" → lang ≠ "he" → lang ≠ "jv" →
                           getFixedLanguage lang = lang).
  { intros lang Hzh Hhe Hjv. unfold getFixedLanguage.
    rewrite fixedLanguagesMap_lookup.
    apply String.eqb_neq in Hzh, Hhe, Hjv. by rewrite Hzh, Hhe, Hjv. }
  repeat split; try done.
  intros lang.
  destruct (decide (lang = "zh")) as [->|Hzh]; [done|].
  destruct (decide (lang = "he")) as [->|Hhe]; [done|].
  destruct (decide (lang = "jv")) as [->|Hjv]; [done|].
  rewrite (Hother lang) by done. by apply Hother.
Qed.

Lemma getFixedLanguage_fixup_witness : getFixedLanguage "en" = "en".
Proof.
  apply (proj1 (proj2 (proj2 (proj2 getFixedLanguage_fixup)))); discriminate.
Defined.

(** ** The length limit *)

Lemma String_length_app (s1 s2 : string) :
  String.length (s1 +:+ s2) = String.length s1 + String.length s2.
Proof. induction s1 as [|c s1 IH]; simpl; [done|]. cbn. by rewrite IH. Qed.

Lemma join_empty_length (parts : list string) :
  String.length (join EmptyString parts) = sum_list (String.length <$> parts).
Proof.
  unfold join. induction parts as [|x [|y parts] IH]; [done| |].
  - simpl. lia.
  - change (String.concat EmptyString (x :: y :: parts))
      with (x +:+ EmptyString +:+ String.concat EmptyString (y :: parts)).
    rewrite !String_length_app, IH. simpl. lia.
Qed.

Lemma encodeSegment_length (i : nat) (text : string) :
  String.length (encodeSegment i text) =
  23 + String.length (numberToString i) + String.length text.
Proof.
  unfold encodeSegment. rewrite !String_length_app. cbn [String.length]. lia.
Qed.

Lemma encodeForBatch_length (textList : list string) :
  String.length (join EmptyString (encodeForBatch textList)) = encodedLength textList.
Proof.
  rewrite join_empty_length. unfold encodeForBatch, encodedLength. rewrite fmap_imap.
  f_equal. apply imap_ext. intros i text _. apply encodeSegment_length.
Qed.

(** C8. For a list, [checkLimitExceeding] measures the concatenation of the
    encoded segments, wrapper characters and index digits included (23
    characters of wrapper per segment): it returns the positive excess of
    that length over 4000, and 0 when there is none. For a single string the
    length compared with 4000 is that of the string itself. *)
Theorem checkLimitExceeding_excess :
  (∀ textList : list string,
     let total := Z.of_nat (encodedLength textList) in
     Z.of_nat (String.length (join EmptyString (encodeForBatch textList))) = total
     ∧ (4000 < total → checkLimitExceeding (TextList textList) = total - 4000
                        ∧ 0 < checkLimitExceeding (TextList textList))
     ∧ (total ≤ 4000 → checkLimitExceeding (TextList textList) = 0))%Z
  ∧ (∀ text : string,
       let len := Z.of_nat (String.length text) in
       (4000 < len → checkLimitExceeding (OneText text) = len - 4000)
       ∧ (len ≤ 4000 → checkLimitExceeding (OneText text) = 0))%Z.
Proof.
  split.
  - intros textList total.
    assert (Hlen : Z.of_nat (String.length (join EmptyString (encodeForBatch textList)))
                   = total) by (by rewrite encodeForBatch_length).
    split; [done|]. unfold checkLimitExceeding, getLengthLimit. rewrite Hlen.
    destruct (Z.ltb_spec 0 (total - 4000)); lia.
  - intros text len. unfold checkLimitExceeding, getLengthLimit. fold len.
    destruct (Z.ltb_spec 0 (len - 4000)); lia.
Qed.

Lemma checkLimitExceeding_excess_witness :
  checkLimitExceeding (TextList ["hello"; "world"]) = 0%Z
  ∧ checkLimitExceeding
      (TextList [String.concat EmptyString (replicate 400 "0123456789"); "world"])
    = 53%Z
  ∧ checkLimitExceeding (OneText "hello") = 0%Z
  ∧ checkLimitExceeding
      (OneText (String.concat EmptyString (replicate 401 "0123456789"))) = 10%Z.
Proof.
  split; [|split; [|split]].
  - apply (proj1 checkLimitExceeding_excess ["hello"; "world"]). vm_compute. discriminate.
  - apply (proj1 (proj2 (proj1 checkLimitExceeding_excess
             [String.concat EmptyString (replicate 400 "0123456789"); "world"]))).
    vm_compute. reflexivity.
  - apply (proj2 checkLimitExceeding_excess "hello"). vm_compute. discriminate.
  - apply (proj1 (proj2 checkLimitExceeding_excess
             (String.concat EmptyString (replicate 401 "0123456789")))).
    vm_compute. reflexivity.
Defined.

(** ** The decoder *)

Section Node_induction.
Context {A : Type}.
Variable P : Node A → Prop.
Hypothesis Helement : ∀ mark namespaceURI tagName attrs kids,
  Forall P kids → P (Element mark namespaceURI tagName attrs kids).
Hypothesis Htext : ∀ mark data, P (Text mark data).
Hypothesis Hcdata : ∀ mark data, P (CDATASection mark data).
Hypothesis Hcomment : ∀ mark data, P (Comment mark data).
Hypothesis Hinstruction : ∀ mark target data, P (ProcessingInstruction mark target data).

Fixpoint Node_nested_ind (n : Node A) : P n :=
  match n with
  | Element mark namespaceURI tagName attrs kids =>
      Helement mark namespaceURI tagName attrs kids
        ((fix go (l : list (Node A)) : Forall P l :=
            match l with
            | [] => List.Forall_nil P
            | k :: l' => List.Forall_cons P k l' (Node_nested_ind k) (go l')
            end) kids)
  | Text mark data => Htext mark data
  | CDATASection mark data => Hcdata mark data
  | Comment mark data => Hcomment mark data
  | ProcessingInstruction mark target data => Hinstruction mark target data
  end.
End Node_induction.

Lemma flat_map_Forall_ext {A B} (f g : A → list B) (l : list A) :
  Forall (λ x, f x = g x) l → flat_map f l = flat_map g l.
Proof. induction 1 as [|x l Hx _ IH]; simpl; [done|]. by rewrite Hx, IH. Qed.

Lemma fmap_flat_map {A B C} (h : B → C) (g : A → list B) (l : list A) :
  h <$> flat_map g l = flat_map (λ x, h <$> g x) l.
Proof. induction l as [|x l IH]; simpl; [done|]. by rewrite fmap_app, IH. Qed.

Lemma flat_map_map {A B C} (g : B → list C) (f : A → B) (l : list A) :
  flat_map g (map f l) = flat_map (λ x, g (f x)) l.
Proof. induction l as [|x l IH]; simpl; [done|]. by rewrite IH. Qed.

(** The two name tests of the expression. *)
Lemma matchesTest_name {A} (name : string) (n : Node A) :
  xpath.matchesTest (xpath.NameTest name) n = hasName (toLowerCase name) n.
Proof. by destruct n. Qed.

(** The five steps of the expression, followed through one node. The two
    descendant-or-self steps and the [pre] step always come from a selected
    parent side; [parentIsPre] is the flag the parent has after the [pre]
    step, [inside] the one it has after the second descendant-or-self step. *)
Lemma translatedTextPath_node {A} (n : Node A) : ∀ parentIsPre inside,
  toString <$>
    xpath.selectedNodes
      (xpath.childStep (xpath.mkStep xpath.Child xpath.TextTest []) inside
         (xpath.descendantOrSelfStep xpath.slashSlash inside
            (xpath.childStep
               (xpath.mkStep xpath.Child xpath.AnyElement
                  [xpath.PNot (xpath.PSelf (xpath.NameTest "i"))]) parentIsPre
               (xpath.childStep (xpath.mkStep xpath.Child (xpath.NameTest "pre") []) true
                  (xpath.descendantOrSelfStep xpath.slashSlash true (xpath.unselected n))))))
  = translatedTexts parentIsPre inside n.
Proof.
  induction n as [mark namespaceURI tagName attrs kids IH|mark data|mark data|mark data
                 |mark target data] using Node_nested_ind;
    intros parentIsPre inside; try (cbn; by destruct inside).
  cbn [xpath.unselected xpath.descendantOrSelfStep xpath.childStep
       xpath.selectedNodes translatedTexts].
  rewrite !List.map_map, fmap_app, flat_map_map, fmap_flat_map.
  unfold xpath.accepts.
  cbn [xpath.nodeTest xpath.predicates xpath.slashSlash forallb xpath.holds].
  rewrite !matchesTest_name.
  change (toLowerCase "pre") with "pre". change (toLowerCase "i") with "i".
  cbn [xpath.matchesTest hasName andb orb].
  rewrite !andb_false_r, !andb_true_r. cbn [fmap list_fmap app].
  apply flat_map_Forall_ext. eapply Forall_impl; [exact IH|].
  intros k Hk. rewrite <- Hk. by destruct parentIsPre, inside.
Qed.

Lemma select_translatedTextPath {A} (doc : Document A) :
  toString <$> xpath.select translatedTextPath doc = translatedTextsOf doc.
Proof.
  unfold xpath.select, translatedTextsOf, translatedTextPath.
  cbn [foldl xpath.applyStep xpath.axis xpath.slashSlash rootMark documentNodes].
  rewrite !List.map_map, flat_map_map, fmap_flat_map.
  apply flat_map_Forall_ext, Forall_forall. intros n _.
  apply (translatedTextPath_node n false false).
Qed.

(** What the decoder computes from the outcome of the parse, in terms of
    the tree alone. *)
Lemma extractText_translatedTexts {A} (parsed : option (Document A)) :
  extractText parsed =
  match parsed with
  | None => None
  | Some doc =>
      match translatedTextsOf doc with
      | [] => None
      | texts => Some (join " " texts)
      end
  end.
Proof.
  destruct parsed as [doc|]; [|done]. cbn [extractText].
  rewrite <- select_translatedTextPath.
  by destruct (xpath.select translatedTextPath doc).
Qed.

Lemma parseXMLResponse_translatedTexts (text : string) :
  parseXMLResponse text =
  match DOMParser.parseFromString text with
  | None => None
  | Some doc =>
      match translatedTextsOf doc with
      | [] => None
      | texts => Some (join " " texts)
      end
  end.
Proof. apply extractText_translatedTexts. Qed.

(** ** The fuel of the parser *)

(** The scanners only ever hand on a suffix of their input, so the fuel the
    tokenizer starts with, one more than the length of the source, never
    runs out: no parse fails for lack of it. *)

Lemma span_le stop s a b :
  DOMParser.span stop s = (a, b) → String.length b ≤ String.length s.
Proof.
  revert a b. induction s as [|c s IH]; intros a b; cbn.
  - by intros [= <- <-].
  - destruct (stop c); [by intros [= <- <-]|].
    destruct (DOMParser.span stop s) as [a' b'] eqn:Hspan. intros [= <- <-].
    specialize (IH _ _ eq_refl). lia.
Qed.

Lemma skipSpaces_le s r :
  DOMParser.skipSpaces s = r → String.length r ≤ String.length s.
Proof.
  intros <-. induction s as [|c s IH]; cbn; [done|].
  destruct (DOMParser.isSpace c); cbn; lia.
Qed.

Lemma readNCName_lt s name r :
  DOMParser.readNCName s = Some (name, r) → String.length r < String.length s.
Proof.
  destruct s as [|c s]; [done|]. unfold DOMParser.readNCName.
  destruct (DOMParser.isNameStartChar c) eqn:Hstart; [|done].
  cbn [DOMParser.span]. unfold DOMParser.isNameChar at 1. rewrite Hstart.
  cbn [orb negb].
  destruct (DOMParser.span _ s) as [a b] eqn:Hspan. intros [= <- <-].
  apply span_le in Hspan. cbn. lia.
Qed.

Lemma readName_lt s name r :
  DOMParser.readName s = Some (name, r) → String.length r < String.length s.
Proof.
  unfold DOMParser.readName. intros H.
  repeat case_match; simplify_eq;
    repeat match goal with
      | H : DOMParser.readNCName _ = Some _ |- _ => apply readNCName_lt in H
      end;
    cbn [String.length] in *; lia.
Qed.

Lemma stripPrefix_le pattern : ∀ s r,
  DOMParser.stripPrefix pattern s = Some r → String.length r ≤ String.length s.
Proof.
  induction pattern as [|p pattern IH]; intros s r; cbn.
  - by intros [= <-].
  - destruct s as [|c s]; [done|]. destruct (p =? c)%char; [|done].
    intros H. apply IH in H. cbn. lia.
Qed.

Lemma cut_le pattern s : ∀ a b,
  DOMParser.cut pattern s = Some (a, b) → String.length b ≤ String.length s.
Proof.
  induction s as [|c s IH]; intros a b; cbn [DOMParser.cut].
  - destruct (DOMParser.stripPrefix pattern EmptyString) as [r|] eqn:Hstrip; [|done].
    intros [= <- <-]. by apply stripPrefix_le in Hstrip.
  - destruct (DOMParser.stripPrefix pattern (String c s)) as [r|] eqn:Hstrip.
    + intros [= <- <-]. by apply stripPrefix_le in Hstrip.
    + destruct (DOMParser.cut pattern s) as [[a' b']|]; [|done].
      intros [= <- <-]. specialize (IH _ _ eq_refl). cbn. lia.
Qed.

Lemma span_chars_le c s a b :
  (c =? "<")%char = false →
  DOMParser.span (Ascii.eqb "<") (String c s) = (a, b) →
  String.length b ≤ String.length s.
Proof.
  intros Hc. cbn [DOMParser.span]. rewrite Ascii.eqb_sym, Hc.
  destruct (DOMParser.span _ s) as [a' b'] eqn:Hspan. intros [= <- <-].
  by apply span_le in Hspan.
Qed.

Ltac suffix_lengths :=
  repeat match goal with
    | H : DOMParser.skipSpaces _ = _ |- _ => apply skipSpaces_le in H
    | H : DOMParser.span _ _ = _ |- _ => apply span_le in H
    | H : DOMParser.readName _ = Some _ |- _ => apply readName_lt in H
    | H : DOMParser.stripPrefix _ _ = Some _ |- _ => apply stripPrefix_le in H
    | H : DOMParser.cut _ _ = Some _ |- _ => apply cut_le in H
    end;
  cbn [String.length] in *.

Lemma readAttributes_lt fuel : ∀ s attrs attrs' selfClosing rest,
  DOMParser.readAttributes fuel s attrs = Some (attrs', selfClosing, rest) →
  String.length rest < String.length s.
Proof.
  induction fuel as [|fuel IH]; intros s attrs attrs' selfClosing rest; [done|].
  cbn [DOMParser.readAttributes]. intros H.
  repeat case_match; simplify_eq; try (apply IH in H); suffix_lengths; lia.
Qed.

Lemma readAttributes_fuel fuel : ∀ fuel' s attrs,
  String.length s < fuel → String.length s < fuel' →
  DOMParser.readAttributes fuel s attrs = DOMParser.readAttributes fuel' s attrs.
Proof.
  induction fuel as [|fuel IH]; intros [|fuel'] s attrs Hfuel Hfuel'; try lia.
  cbn [DOMParser.readAttributes].
  repeat case_match; simplify_eq; try done;
    apply IH; suffix_lengths; lia.
Qed.

Lemma tokenize_fuel fuel : ∀ fuel' s,
  String.length s < fuel → String.length s < fuel' →
  DOMParser.tokenize fuel s = DOMParser.tokenize fuel' s.
Proof.
  induction fuel as [|fuel IH]; intros [|fuel'] s Hfuel Hfuel'; try lia.
  cbn [DOMParser.tokenize].
  repeat case_match; simplify_eq; try done;
    f_equal; apply IH;
    repeat match goal with
      | H : DOMParser.readAttributes _ _ _ = Some _ |- _ => apply readAttributes_lt in H
      | Hc : (?c =? "<")%char = false,
        H : DOMParser.span (Ascii.eqb "<") (String ?c _) = _ |- _ =>
          apply (span_chars_le _ _ _ _ Hc) in H
      end;
    suffix_lengths; lia.
Qed.

Lemma normalizeLineEndings_le (n : nat) : ∀ s,
  String.length s ≤ n →
  String.length (DOMParser.normalizeLineEndings s) ≤ String.length s.
Proof.
  induction n as [|n IH]; intros [|c s] Hn; cbn in *; try lia.
  destruct (c =? "013")%char.
  - destruct s as [|c' s]; cbn in *; [lia|].
    destruct ((c' =? "010")%char || (c' =? "133")%char).
    + specialize (IH s ltac:(lia)). lia.
    + specialize (IH (String c' s) ltac:(cbn; lia)). cbn in IH. lia.
  - specialize (IH s ltac:(lia)). destruct (c =? "133")%char; cbn; lia.
Qed.

(** Any fuel above the length of the source gives the parse that
    [parseFromString] computes. *)
Lemma parseFromString_fuel (source : string) (fuel : nat) :
  String.length source < fuel →
  DOMParser.parseFromString source =
  (tokens ← DOMParser.tokenize fuel (DOMParser.normalizeLineEndings source);
   nodes ← DOMParser.buildTree tokens [] [];
   Some (mkDocument ()
           (map (DOMParser.resolveNamespaces DOMParser.initialScope)
              (DOMParser.singleRoot false nodes)))).
Proof.
  intros Hfuel. unfold DOMParser.parseFromString.
  pose proof (normalizeLineEndings_le _ source (le_n _)).
  by rewrite (tokenize_fuel
                (S (String.length (DOMParser.normalizeLineEndings source))) fuel) by lia.
Qed.

(** ** The round trip of the codec *)

Lemma span_app_stop (stop : ascii → bool) (s : string) (c : ascii) (rest : string) :
  Forall (λ c', stop c' = false) (list_ascii_of_string s) →
  stop c = true →
  DOMParser.span stop (s +:+ String c rest) = (s, String c rest).
Proof.
  intros Hs Hc. induction s as [|c' s IH].
  - change (EmptyString +:+ String c rest) with (String c rest). cbn. by rewrite Hc.
  - change (String c' s +:+ String c rest) with (String c' (s +:+ String c rest)).
    inversion Hs as [|? ? Hc' Hs']; subst. cbn. by rewrite Hc', (IH Hs').
Qed.

Lemma decodeEntities_plain (s : string) :
  Forall (λ c, (c =? "&")%char = false) (list_ascii_of_string s) →
  DOMParser.decodeEntities None s = s.
Proof.
  induction s as [|c s IH]; intros Hs; [done|].
  inversion Hs as [|? ? Hc Hs']; subst. cbn. rewrite Hc. by rewrite (IH Hs').
Qed.

Lemma isMarkupSpecial_false (c : ascii) :
  isMarkupSpecial c = false →
  (c =? "<")%char = false ∧ (c =? ">")%char = false ∧ (c =? "&")%char = false
  ∧ (c =? "013")%char = false ∧ (c =? "133")%char = false.
Proof.
  unfold isMarkupSpecial. intros H.
  repeat (apply orb_false_elim in H as [H ?]). done.
Qed.

Lemma escapeText_plain (s : string) :
  noMarkupSpecial s → escapeText s = s.
Proof.
  unfold noMarkupSpecial. induction s as [|c s IH]; intros Hs; [done|].
  inversion Hs as [|? ? Hc Hs']; subst. cbn.
  apply isMarkupSpecial_false in Hc as (Hlt & Hgt & Hamp & _).
  rewrite Hlt, Hgt, Hamp. by rewrite (IH Hs').
Qed.

(** Normalizing leaves alone a source with no line break to normalize. *)
Lemma normalizeLineEndings_app_plain (s rest : string) :
  Forall (λ c, (c =? "013")%char = false ∧ (c =? "133")%char = false)
    (list_ascii_of_string s) →
  DOMParser.normalizeLineEndings (s +:+ rest) = s +:+ DOMParser.normalizeLineEndings rest.
Proof.
  induction s as [|c s IH]; intros Hs; [done|].
  inversion Hs as [|? ? [Hcr Hnel] Hs']; subst.
  change (String c s +:+ rest) with (String c (s +:+ rest)).
  cbn [DOMParser.normalizeLineEndings]. rewrite Hcr, Hnel, (IH Hs'). done.
Qed.

Lemma numberToString_digits (i : nat) :
  Forall (λ c, isDigit c = true) (list_ascii_of_string (numberToString i)).
Proof.
  unfold numberToString. generalize (Nat.to_uint i). intros d.
  induction d; cbn; constructor; done.
Qed.

Lemma encodeSegment_unfold (i : nat) (text : string) :
  encodeSegment i text =
  "<pre>" +:+ "<a i=" +:+
    String dquote (numberToString i +:+ String dquote (String ">"
      (text +:+ "</a>" +:+ "</pre>"))).
Proof. reflexivity. Qed.

Lemma digit_is_plain (c : ascii) :
  isDigit c = true →
  (dquote =? c)%char = false ∧ ("<" =? c)%char = false ∧ (c =? "&")%char = false.
Proof.
  intros Hc. repeat split; apply Ascii.eqb_neq.
  - intros <-. by vm_compute in Hc.
  - intros <-. by vm_compute in Hc.
  - intros ->. by vm_compute in Hc.
Qed.

(** The tokenizer on the pieces of an encoded segment. *)
Lemma tokenize_pre_open (fuel : nat) (rest : string) :
  DOMParser.tokenize (S fuel) ("<pre>" +:+ rest) =
  cons (DOMParser.StartTag "pre" []) <$> DOMParser.tokenize fuel rest.
Proof.
  change ("<pre>" +:+ rest)
    with (String "<" (String "p" (String "r" (String "e" (String ">" rest))))).
  simpl. done.
Qed.

Lemma tokenize_a_open (fuel : nat) (digits rest : string) :
  Forall (λ c, isDigit c = true) (list_ascii_of_string digits) →
  DOMParser.tokenize (S fuel)
    ("<a i=" +:+ String dquote (digits +:+ String dquote (String ">" rest))) =
  cons (DOMParser.StartTag "a" [("i", digits)]) <$> DOMParser.tokenize fuel rest.
Proof.
  intros Hdigits.
  assert (Hquote : Forall (λ c, Ascii.eqb dquote c = false) (list_ascii_of_string digits)).
  { eapply Forall_impl; [exact Hdigits|]. intros c Hc. by apply digit_is_plain. }
  assert (Hlt : existsb (Ascii.eqb "<") (list_ascii_of_string digits) = false).
  { clear -Hdigits. induction Hdigits as [|c l Hc _ IH]; [done|].
    cbn [existsb]. rewrite IH, orb_false_r. by apply digit_is_plain. }
  assert (Hamp : Forall (λ c, (c =? "&")%char = false) (list_ascii_of_string digits)).
  { eapply Forall_impl; [exact Hdigits|]. intros c Hc. by apply digit_is_plain. }
  change ("<a i=" +:+ String dquote (digits +:+ String dquote (String ">" rest)))
    with (String "<" (String "a" (String " " (String "i" (String "="
            (String dquote (digits +:+ String dquote (String ">" rest)))))))).
  simpl.
  rewrite (span_app_stop _ digits dquote _ Hquote eq_refl).
  rewrite Hlt, (decodeEntities_plain digits Hamp).
  simpl. done.
Qed.

Lemma tokenize_chars (fuel : nat) (text rest : string) :
  text ≠ EmptyString →
  noMarkupSpecial text →
  DOMParser.tokenize (S fuel) (text +:+ String "<" rest) =
  cons (DOMParser.Chars text) <$> DOMParser.tokenize fuel (String "<" rest).
Proof.
  intros Hne Hplain.
  assert (Hlt : Forall (λ c, Ascii.eqb "<" c = false) (list_ascii_of_string text)).
  { eapply Forall_impl; [exact Hplain|]. intros c Hc.
    apply Ascii.eqb_neq. intros <-. by vm_compute in Hc. }
  assert (Hamp : Forall (λ c, (c =? "&")%char = false) (list_ascii_of_string text)).
  { eapply Forall_impl; [exact Hplain|]. intros c Hc.
    apply Ascii.eqb_neq. intros ->. by vm_compute in Hc. }
  destruct text as [|c text']; [done|].
  change (String c text' +:+ String "<" rest) with (String c (text' +:+ String "<" rest)).
  cbn [DOMParser.tokenize].
  assert (Hc : (c =? "<")%char = false).
  { inversion Hlt as [|? ? Hc' _]; subst. by rewrite Ascii.eqb_sym. }
  rewrite Hc.
  change (String c (text' +:+ String "<" rest)) with (String c text' +:+ String "<" rest).
  rewrite (span_app_stop _ _ "<"%char _ Hlt eq_refl).
  by rewrite (decodeEntities_plain _ Hamp).
Qed.

Lemma tokenize_a_close (fuel : nat) (rest : string) :
  DOMParser.tokenize (S fuel) ("</a>" +:+ rest) =
  cons (DOMParser.EndTag "a") <$> DOMParser.tokenize fuel rest.
Proof.
  change ("</a>" +:+ rest) with (String "<" (String "/" (String "a" (String ">" rest)))).
  simpl. done.
Qed.

Lemma tokenize_pre_close (fuel : nat) (rest : string) :
  DOMParser.tokenize (S fuel) ("</pre>" +:+ rest) =
  cons (DOMParser.EndTag "pre") <$> DOMParser.tokenize fuel rest.
Proof.
  change ("</pre>" +:+ rest)
    with (String "<" (String "/" (String "p" (String "r" (String "e" (String ">" rest)))))).
  simpl. done.
Qed.

Lemma tokenize_encodeSegment (i : nat) (text : string) (fuel : nat) :
  text ≠ EmptyString →
  noMarkupSpecial text →
  DOMParser.tokenize (6 + fuel) (encodeSegment i text) =
  Some [ DOMParser.StartTag "pre" [];
         DOMParser.StartTag "a" [("i", numberToString i)];
         DOMParser.Chars text;
         DOMParser.EndTag "a";
         DOMParser.EndTag "pre" ].
Proof.
  intros Hne Hplain. rewrite encodeSegment_unfold.
  change (6 + fuel) with (S (S (S (S (S (S fuel)))))).
  rewrite tokenize_pre_open, tokenize_a_open by apply numberToString_digits.
  change (text +:+ "</a>" +:+ "</pre>") with (text +:+ String "<" ("/a>" +:+ "</pre>")).
  rewrite tokenize_chars by done.
  change (String "<" ("/a>" +:+ "</pre>")) with ("</a>" +:+ "</pre>" +:+ EmptyString).
  rewrite tokenize_a_close, tokenize_pre_close. done.
Qed.

(** The document of an encoded segment whose text is not empty and holds
    no markup character. *)
Lemma parseFromString_encodeSegment (i : nat) (text : string) :
  text ≠ EmptyString →
  noMarkupSpecial text →
  DOMParser.parseFromString (encodeSegment i text) =
  Some (mkDocument ()
          [Element () EmptyString "pre" []
             [Element () EmptyString "a" [("i", numberToString i)] [Text () text]]]).
Proof.
  intros Hne Hplain. unfold DOMParser.parseFromString.
  assert (Hsame : DOMParser.normalizeLineEndings (encodeSegment i text) =
                  encodeSegment i text).
  { rewrite encodeSegment_unfold.
    change (String dquote (numberToString i +:+ String dquote (String ">"
              (text +:+ "</a>" +:+ "</pre>"))))
      with (String dquote EmptyString +:+ numberToString i +:+
              String dquote (String ">" EmptyString) +:+ text +:+ "</a>" +:+ "</pre>").
    rewrite !normalizeLineEndings_app_plain; [done|..];
      try (cbn; repeat constructor; done).
    - eapply Forall_impl; [exact Hplain|]. intros c Hc.
      by apply isMarkupSpecial_false in Hc as (_ & _ & _ & ? & ?).
    - eapply Forall_impl; [apply numberToString_digits|]. intros c Hc.
      split; apply Ascii.eqb_neq; intros ->; by vm_compute in Hc. }
  rewrite Hsame.
  assert (Hfuel : ∃ fuel, S (String.length (encodeSegment i text)) = 6 + fuel).
  { rewrite encodeSegment_length. by exists (18 + String.length (numberToString i)
                                               + String.length text). }
  destruct Hfuel as [fuel ->]. cbn zeta. by rewrite tokenize_encodeSegment.
Qed.

(** C6, as the code has it. Encoding a text at any position and decoding the
    fragment gives the text back when the text is not empty and holds no
    markup-special character (<, > and &, and the line breaks that the parser
    normalizes); the fragment is the entry of [encodeForBatch] at that
    position. *)
Theorem decode_encode_roundtrip (textList : list string) (i : nat) (text : string) :
  textList !! i = Some text →
  text ≠ EmptyString →
  noMarkupSpecial text →
  encodeForBatch textList !! i = Some (encodeSegment i text)
  ∧ parseXMLResponse (encodeSegment i text) = Some text.
Proof.
  intros Hi Hne Hplain. split.
  - unfold encodeForBatch. by rewrite list_lookup_imap, Hi.
  - rewrite parseXMLResponse_translatedTexts, parseFromString_encodeSegment by done.
    cbn. by rewrite escapeText_plain.
Qed.

Lemma decode_encode_roundtrip_witness :
  encodeForBatch ["hello"; "world"] !! 1 = Some (encodeSegment 1 "world")
  ∧ parseXMLResponse (encodeSegment 1 "world") = Some "world".
Proof.
  apply (decode_encode_roundtrip ["hello"; "world"] 1 "world").
  - reflexivity.
  - discriminate.
  - unfold noMarkupSpecial. simpl. repeat constructor.
Defined.

(** C6 as the specification states it fails on the empty text, which holds
    no markup character: its fragment has no text node, and decoding it
    gives null, not the empty text. *)
Lemma empty_text_does_not_round_trip :
  noMarkupSpecial EmptyString
  ∧ parseXMLResponse (encodeSegment 0 EmptyString) = None
  ∧ parseXMLResponse (encodeSegment 0 EmptyString) ≠ Some EmptyString.
Proof. split; [constructor|]. split; [by vm_compute|]. by vm_compute. Qed.

(** Nor does a text with one of the characters set apart above come back as
    it was: a carriage return is read as a line feed, and a [>] or a lone
    ampersand is written back as an entity reference. *)
Lemma special_characters_do_not_round_trip :
  parseXMLResponse (encodeSegment 0 (String "013" EmptyString)) = Some (String "010" EmptyString)
  ∧ parseXMLResponse (encodeSegment 0 ">") = Some "&gt;"
  ∧ parseXMLResponse (encodeSegment 0 "&") = Some "&amp;".
Proof. repeat split; by vm_compute. Qed.

(** ** What the decoder extracts *)

(** Below an element that counts, every text node is taken. *)
Lemma translatedTexts_inside {A} (n : Node A) :
  ∀ parentIsPre, translatedTexts parentIsPre true n = textsOf n.
Proof.
  induction n as [mark namespaceURI tagName attrs kids IH|mark data|mark data|mark data
                 |mark target data] using Node_nested_ind;
    intros parentIsPre; try done.
  cbn [translatedTexts textsOf orb].
  apply flat_map_Forall_ext. eapply Forall_impl; [exact IH|].
  intros kid Hkid. apply Hkid.
Qed.

(** Away from any [pre] element, none is. *)
Lemma translatedTexts_outside {A} (n : Node A) :
  containsPre n = false → translatedTexts false false n = [].
Proof.
  induction n as [mark namespaceURI tagName attrs kids IH|mark data|mark data|mark data
                 |mark target data] using Node_nested_ind;
    intros Hpre; try done.
  cbn [containsPre hasName] in Hpre. apply orb_false_elim in Hpre as [Htag Hkids].
  cbn [translatedTexts hasName orb andb]. rewrite Htag.
  induction IH as [|kid kids Hkid _ IHkids]; [done|].
  cbn [existsb] in Hkids. apply orb_false_elim in Hkids as [Hk Hkids].
  cbn [flat_map]. by rewrite (Hkid Hk), (IHkids Hkids).
Qed.

Lemma translatedTexts_child {A} (child : Node A) :
  containsPre child = false → translatedTexts true false child = childTexts child.
Proof.
  destruct child as [mark namespaceURI tagName attrs kids|mark data|mark data|mark data
                    |mark target data]; intros Hpre; try done.
  cbn [containsPre hasName] in Hpre. apply orb_false_elim in Hpre as [Htag Hkids].
  cbn [translatedTexts childTexts hasName orb andb]. rewrite Htag.
  destruct (String.eqb namespaceURI EmptyString
            && String.eqb (toLowerCase (testedName tagName)) "i"); cbn [negb].
  - induction kids as [|kid kids IH]; [done|].
    cbn [existsb] in Hkids. apply orb_false_elim in Hkids as [Hk Hkids].
    cbn [flat_map]. by rewrite (translatedTexts_outside kid Hk), (IH Hkids).
  - apply flat_map_Forall_ext, Forall_forall. intros kid _.
    apply translatedTexts_inside.
Qed.

Lemma translatedTextsOf_container {A} (rm : A) mark namespaceURI tagName attrs
    (kids : list (Node A)) :
  hasName "pre" (Element mark namespaceURI tagName attrs kids) = true →
  Forall (λ kid, containsPre kid = false) kids →
  translatedTextsOf (mkDocument rm [Element mark namespaceURI tagName attrs kids]) =
  flat_map childTexts kids.
Proof.
  intros Hpre Hkids. unfold translatedTextsOf.
  cbn [documentNodes flat_map translatedTexts orb andb]. rewrite app_nil_r, Hpre.
  apply flat_map_Forall_ext. eapply Forall_impl; [exact Hkids|].
  intros kid Hkid. by apply translatedTexts_child.
Qed.

(** C7, as the code has it, for whatever the parser makes of the text.
    Decoding never fails: when the text does not parse, or the expression
    selects no node, the result is null, which is not the empty string.
    Otherwise the result is the selected nodes, each serialized (a text node
    with its markup characters written as entities), joined by single
    spaces. The nodes selected are the text nodes and CDATA sections lying at
    any depth inside an element other than [i] whose parent is a [pre]
    element, the two names being those of elements in no namespace, compared
    without regard to letter case; for a document that is one [pre]
    container with no [pre] below it, these are the ones below the element
    children of the container that are not named [i], and text placed
    directly under the container is not among them. *)
Theorem parseXMLResponse_extraction {A} (parseFromString : string → option (Document A))
    (text : string) :
  (parseFromString text = None → parseXMLResponseWith parseFromString text = None)
  ∧ (∀ doc, parseFromString text = Some doc →
       toString <$> xpath.select translatedTextPath doc = translatedTextsOf doc
       ∧ parseXMLResponseWith parseFromString text =
           match translatedTextsOf doc with
           | [] => None
           | texts => Some (join " " texts)
           end)
  ∧ (∀ rm mark namespaceURI tagName attrs kids,
       parseFromString text =
         Some (mkDocument rm [Element mark namespaceURI tagName attrs kids]) →
       hasName "pre" (Element mark namespaceURI tagName attrs kids) = true →
       Forall (λ kid, containsPre kid = false) kids →
       parseXMLResponseWith parseFromString text =
         match flat_map childTexts kids with
         | [] => None
         | texts => Some (join " " texts)
         end).
Proof.
  unfold parseXMLResponseWith. split; [|split].
  - by intros ->.
  - intros doc ->. split; [apply select_translatedTextPath|].
    apply (extractText_translatedTexts (Some doc)).
  - intros rm mark namespaceURI tagName attrs kids -> Hpre Hkids.
    rewrite extractText_translatedTexts.
    by rewrite translatedTextsOf_container.
Qed.

Lemma parseXMLResponse_extraction_witness :
  parseXMLResponse "<pre><I>Hi!</I><a i='0'>Salut <b>tout</b> le monde</a>!</pre>" =
    Some "Salut  tout  le monde"
  ∧ parseXMLResponse "<pre><a i='0' i='1'>Salut</a></pre>" = None.
Proof.
  split.
  - exact (proj2 (proj2
      (parseXMLResponse_extraction DOMParser.parseFromString
         "<pre><I>Hi!</I><a i='0'>Salut <b>tout</b> le monde</a>!</pre>"))
      () () EmptyString "pre" []
      [ Element () EmptyString "I" [] [Text () "Hi!"];
        Element () EmptyString "a" [("i", "0")]
          [ Text () "Salut "; Element () EmptyString "b" [] [Text () "tout"];
            Text () " le monde" ];
        Text () "!" ]
      eq_refl eq_refl
      ltac:(repeat constructor)).
  - exact (proj1 (parseXMLResponse_extraction DOMParser.parseFromString
                    "<pre><a i='0' i='1'>Salut</a></pre>") eq_refl).
Defined.

(** C7 as the specification states it fails: the text nodes are joined by
    spaces and not concatenated, and text directly under the container is
    not extracted. *)
Lemma decoder_joins_with_spaces :
  parseXMLResponse "<pre><a i='0'>Bonjour<b>le</b>monde</a></pre>" = Some "Bonjour le monde"
  ∧ describedDecode "<pre><a i='0'>Bonjour<b>le</b>monde</a></pre>" = Some "Bonjourlemonde"
  ∧ parseXMLResponse "<pre>Bonjour</pre>" = None
  ∧ describedDecode "<pre>Bonjour</pre>" = Some "Bonjour".
Proof. repeat split; by vm_compute. Qed.

(** * Further properties *)

(** ** Variant B: the three modes *)

Lemma evenPositions_length_half {A} (l : list A) :
  length (evenPositions l) = (length l + 1) / 2.
Proof.
  assert (H : ∀ n (l : list A), length l ≤ n →
                length (evenPositions l) = (length l + 1) / 2).
  { clear l. induction n as [|n IH]; intros [|x [|y l]] Hn;
      cbn [evenPositions length] in *; try done; try lia.
    rewrite IH by lia.
    replace (S (S (length l)) + 1) with (length l + 1 + 1 * 2) by lia.
    rewrite Nat.div_add by done. lia. }
  by apply (H (length l)).
Qed.

Lemma forIn_length single oneToOne entries : ∀ idx result,
  length (forIn single oneToOne idx entries result) ≤ length result + length entries.
Proof.
  induction entries as [|text rest IH]; intros idx result; cbn [forIn length]; [lia|].
  destruct single; [rewrite length_app; simpl; lia|].
  etrans; [apply IH|].
  destruct (oneToOne || (idx mod 2 =? 0)); rewrite ?length_app; simpl; lia.
Qed.

Lemma reconcileTokenFree_length text arr :
  length (reconcileTokenFree text arr) ≤ length (stringLeaves arr).
Proof.
  unfold reconcileTokenFree. rewrite collected_stringLeaves.
  etrans; [apply forIn_length|]. simpl. lia.
Qed.

Lemma reconcileTokenFree_one_to_one text arr :
  length (stringLeaves arr) = length text →
  reconcileTokenFree text arr = stringLeaves arr.
Proof.
  intros HM. unfold reconcileTokenFree. rewrite collected_stringLeaves, HM, Nat.eqb_refl.
  destruct (Nat.eqb_spec (length text) 1) as [H1|H1].
  - rewrite H1 in HM. destruct (stringLeaves arr) as [|s [|? ?]]; done.
  - by rewrite forIn_oneToOne.
Qed.

Lemma reconcileTokenFree_parity text arr :
  length text ≠ 1 →
  length (stringLeaves arr) ≠ length text →
  reconcileTokenFree text arr = evenPositions (stringLeaves arr).
Proof.
  intros HN HM. unfold reconcileTokenFree. rewrite collected_stringLeaves.
  replace (length text =? 1) with false by (symmetry; by apply Nat.eqb_neq).
  replace (length (stringLeaves arr) =? length text) with false
    by (symmetry; by apply Nat.eqb_neq).
  by rewrite forIn_parity.
Qed.

(** ** Variant A: single-response mode *)

Lemma decodeLeaf_single_full leaves : ∀ result,
  length result = 1 →
  foldl (λ s o, decodeLeaf true o s) result leaves = result.
Proof.
  induction leaves as [|o leaves IH]; intros result Hfull; [done|].
  cbn [foldl]. unfold decodeLeaf at 2. rewrite Hfull. cbn. by apply IH.
Qed.

Lemma decodeLeaf_single leaves :
  foldl (λ s o, decodeLeaf true o s) [] leaves =
  match omap asString leaves with
  | [] => []
  | first :: _ => [orElse (parseXMLResponse first) first]
  end.
Proof.
  induction leaves as [|o leaves IH]; [done|].
  cbn [foldl]. destruct o as [| | |s| |]; try exact IH.
  cbn. by apply decodeLeaf_single_full.
Qed.

Lemma reconcileTokenAuthorized_single text arr :
  length text = 1 →
  reconcileTokenAuthorized text arr =
  match stringLeaves arr with
  | [] => []
  | first :: _ => [orElse (parseXMLResponse first) first]
  end.
Proof.
  intros HN. unfold reconcileTokenAuthorized. rewrite HN. cbn [Nat.eqb].
  by rewrite visitArrayItems_leaves, decodeLeaf_single.
Qed.

Lemma omap_length_le {A B} (f : A → option B) (l : list A) :
  length (omap f l) ≤ length l.
Proof.
  induction l as [|x l IH]; [done|]. change (omap f (x :: l)) with
    (match f x with Some y => y :: omap f l | None => omap f l end).
  destruct (f x); cbn [length]; lia.
Qed.

Lemma reconcileTokenAuthorized_length text arr :
  length (reconcileTokenAuthorized text arr) ≤ length (stringLeaves arr).
Proof.
  destruct (Nat.eqb_spec (length text) 1) as [H1|H1].
  - rewrite reconcileTokenAuthorized_single by done.
    destruct (stringLeaves arr); simpl; lia.
  - unfold reconcileTokenAuthorized.
    replace (length text =? 1) with false by (symmetry; by apply Nat.eqb_neq).
    rewrite visitArrayItems_leaves, decodeLeaf_batch. simpl. apply omap_length_le.
Qed.

(** ** Leaves that hold no markup *)

Lemma span_no_stop (stop : ascii → bool) (s : string) :
  Forall (λ c, stop c = false) (list_ascii_of_string s) →
  DOMParser.span stop s = (s, EmptyString).
Proof.
  induction s as [|c s IH]; intros Hs; [done|].
  inversion Hs as [|? ? Hc Hs']; subst. cbn. by rewrite Hc, (IH Hs').
Qed.

Lemma normalizeLineEndings_noTagOpen (n : nat) : ∀ s,
  String.length s ≤ n → noTagOpen s → noTagOpen (DOMParser.normalizeLineEndings s).
Proof.
  unfold noTagOpen.
  induction n as [|n IH]; intros [|c s] Hn Hs; cbn in *; try done; try lia.
  inversion Hs as [|? ? Hc Hs']; subst.
  destruct (c =? "013")%char.
  - cbn. constructor; [done|].
    destruct s as [|c' s]; [constructor|].
    inversion Hs' as [|? ? Hc' Hs'']; subst. cbn in Hn.
    destruct ((c' =? "010")%char || (c' =? "133")%char).
    + apply IH; [lia|done].
    + apply IH; [cbn; lia|done].
  - destruct (c =? "133")%char; cbn; (constructor; [done|]); apply IH; (lia || done).
Qed.

(** A text with no [<] in it parses to no element, so that nothing is
    extracted from it. *)
Lemma parseXMLResponse_noTagOpen (text : string) :
  noTagOpen text → parseXMLResponse text = None.
Proof.
  intros Hplain. rewrite parseXMLResponse_translatedTexts.
  unfold DOMParser.parseFromString. cbn zeta.
  pose proof (normalizeLineEndings_noTagOpen _ text (le_n _) Hplain) as Hsource.
  destruct (DOMParser.normalizeLineEndings text) as [|c source]; [done|].
  cbn [String.length DOMParser.tokenize].
  assert (Hc : (c =? "<")%char = false).
  { inversion Hsource; subst. by rewrite Ascii.eqb_sym. }
  rewrite Hc, (span_no_stop _ _ Hsource). done.
Qed.

(** ** The encoded batch, echoed *)

Lemma parseXMLResponse_encodeSegment (i : nat) (text : string) :
  text ≠ EmptyString → noMarkupSpecial text →
  parseXMLResponse (encodeSegment i text) = Some text.
Proof.
  intros Hne Hplain.
  rewrite parseXMLResponse_translatedTexts, parseFromString_encodeSegment by done.
  cbn. by rewrite escapeText_plain.
Qed.

Lemma stringLeaves_strings (l : list string) : stringLeaves (RStr <$> l) = l.
Proof.
  unfold stringLeaves, flattenedLeaves.
  induction l as [|s l IH]; [done|]. cbn. by rewrite IH.
Qed.

Lemma reconcileTokenAuthorized_not_single text arr :
  length text ≠ 1 →
  reconcileTokenAuthorized text arr = omap parseXMLResponse (stringLeaves arr).
Proof.
  intros HN. unfold reconcileTokenAuthorized.
  replace (length text =? 1) with false by (symmetry; by apply Nat.eqb_neq).
  by rewrite visitArrayItems_leaves, decodeLeaf_batch.
Qed.

Lemma omap_decode_encoded (l : list string) : ∀ k,
  Forall (λ text, text ≠ EmptyString ∧ noMarkupSpecial text) l →
  omap parseXMLResponse (imap (λ i, encodeSegment (k + i)) l) = l.
Proof.
  induction l as [|text l IH]; intros k Hl; [done|].
  inversion Hl as [|? ? [Hne Hplain] Hl']; subst.
  rewrite imap_cons.
  change (omap parseXMLResponse (?x :: ?r))
    with (match parseXMLResponse x with
          | Some y => y :: omap parseXMLResponse r
          | None => omap parseXMLResponse r
          end).
  rewrite parseXMLResponse_encodeSegment by done. f_equal.
  rewrite <- (IH (S k) Hl') at 2. f_equal.
  apply imap_ext. intros i t _. cbn. f_equal. lia.
Qed.

Lemma decodeTokenAuthorized_echo (text : list string) :
  Forall (λ t, t ≠ EmptyString ∧ noMarkupSpecial t) text →
  decodeTokenAuthorized text (RArr (RStr <$> encodeForBatch text)) = resolve text.
Proof.
  intros Htext. rewrite decodeTokenAuthorized_array.
  assert (Hrec : reconcileTokenAuthorized text (RStr <$> encodeForBatch text) = text).
  { destruct (Nat.eqb_spec (length text) 1) as [H1|H1].
    - rewrite reconcileTokenAuthorized_single, stringLeaves_strings by done.
      destruct text as [|t [|? ?]]; try done.
      inversion Htext as [|? ? [Hne Hplain] _]; subst. cbn.
      rewrite parseXMLResponse_encodeSegment by done. cbn.
      by destruct (String.eqb_spec t EmptyString).
    - rewrite reconcileTokenAuthorized_not_single, stringLeaves_strings by done.
      by apply (omap_decode_encoded text 0). }
  by rewrite Hrec, Nat.eqb_refl.
Qed.

(** ** The single-text reply *)

Lemma String_app_nil_r (s : string) : s +:+ EmptyString = s.
Proof.
  induction s as [|c s IH]; [done|].
  change (String c s +:+ EmptyString) with (String c (s +:+ EmptyString)). by rewrite IH.
Qed.

Lemma concat_empty_cons (x : string) (l : list string) :
  String.concat EmptyString (x :: l) = x +:+ String.concat EmptyString l.
Proof. destruct l; [by rewrite String_app_nil_r|done]. Qed.

Lemma chunkText_leadingString (chunk : RawReply) :
  chunkText chunk = default EmptyString (leadingString chunk).
Proof. by destruct chunk as [| | | |[|[] ?]|]. Qed.

Lemma join_chunkText (chunks : list RawReply) :
  join EmptyString (map chunkText chunks) =
  String.concat EmptyString (omap leadingString chunks).
Proof.
  unfold join. induction chunks as [|chunk chunks IH]; [done|].
  cbn [map]. rewrite concat_empty_cons, IH, chunkText_leadingString.
  change (omap leadingString (chunk :: chunks))
    with (match leadingString chunk with
          | Some y => y :: omap leadingString chunks
          | None => omap leadingString chunks
          end).
  destruct (leadingString chunk); [by rewrite concat_empty_cons|done].
Qed.

Lemma String_app_assoc (s1 s2 s3 : string) : (s1 +:+ s2) +:+ s3 = s1 +:+ (s2 +:+ s3).
Proof.
  induction s1 as [|c s1 IH]; [done|].
  change ((String c s1 +:+ s2) +:+ s3) with (String c ((s1 +:+ s2) +:+ s3)).
  by rewrite IH.
Qed.

Lemma concat_empty_app (l1 l2 : list string) :
  String.concat EmptyString (l1 ++ l2) =
  String.concat EmptyString l1 +:+ String.concat EmptyString l2.
Proof.
  induction l1 as [|x l1 IH]; [done|].
  change ((x :: l1) ++ l2) with (x :: (l1 ++ l2)).
  rewrite !concat_empty_cons, IH. by rewrite String_app_assoc.
Qed.

(** ** The calls, mode by mode *)

Section MoreCallProperties.
Variable axios : AxiosRequest → Error + RawReply.
Variable getToken : string → Error + string.
Variable stringify : list (string * QueryValue) → string.
Variable encodeURIComponent : string → string.
Variable wrapUrlToCorsProxy : string → string.
Variable optionsHeaders : list (string * string).

Local Abbreviation batchA :=
  (translateBatchTokenAuthorized axios getToken stringify encodeURIComponent
     wrapUrlToCorsProxy optionsHeaders).
Local Abbreviation batchB :=
  (translateBatchTokenFree axios stringify wrapUrlToCorsProxy optionsHeaders).
Local Abbreviation translateA :=
  (translateTokenAuthorized axios getToken stringify wrapUrlToCorsProxy optionsHeaders).
Local Abbreviation translateB :=
  (translateTokenFree axios stringify wrapUrlToCorsProxy optionsHeaders).

Lemma batchA_delivered text from to rawResp :
  tokenGranted getToken → delivers axios rawResp →
  batchA text from to = decodeTokenAuthorized text rawResp.
Proof. apply translateBatchTokenAuthorized_delivered. Qed.

Lemma batchB_delivered text from to rawResp :
  delivers axios rawResp → batchB text from to = decodeTokenFree text rawResp.
Proof. apply translateBatchTokenFree_delivered. Qed.

Lemma translateTokenAuthorized_delivered text from to rsp :
  tokenGranted getToken → delivers axios rsp →
  translateA text from to = decodeSingle rsp.
Proof.
  intros Htoken Hreply. unfold translateTokenAuthorized.
  destruct (Htoken text) as [tk ->].
  by rewrite andThen_settled_delivered, Hreply, andThen_settled_delivered.
Qed.

(** X1. Variant B, as many string leaves in the delivered reply as segments
    (whatever the number): the call resolves with the string leaves, in
    order and unchanged. *)
Theorem tokenFree_one_to_one (text : list string) (from to : string)
    (arr : list RawReply) :
  delivers axios (RArr arr) →
  length (stringLeaves arr) = length text →
  translateBatchTokenFree axios stringify wrapUrlToCorsProxy optionsHeaders
    text from to = resolve (stringLeaves arr).
Proof.
  intros Hreply HM. rewrite (batchB_delivered _ _ _ _ Hreply).
  rewrite decodeTokenFree_array, reconcileTokenFree_one_to_one by done.
  by rewrite HM, Nat.eqb_refl.
Qed.

(** X2. Variant B, not exactly one segment, and a number M of string leaves
    other than the number N of segments: the leaves at the even positions
    are the candidates, and the call resolves with them exactly when there
    are N of them, that is when the rounded-up half of M is N (so for
    M = 2N and also for M = 2N - 1); for any other M it rejects with the
    length error after writing the candidates and the reply to the
    console. *)
Theorem tokenFree_parity_resolution (text : list string) (from to : string)
    (arr : list RawReply) :
  delivers axios (RArr arr) →
  length text ≠ 1 →
  length (stringLeaves arr) ≠ length text →
  let kept := evenPositions (stringLeaves arr) in
  (∀ i, kept !! i = stringLeaves arr !! (2 * i))
  ∧ translateBatchTokenFree axios stringify wrapUrlToCorsProxy optionsHeaders
      text from to =
      if (length (stringLeaves arr) + 1) / 2 =? length text then resolve kept
      else ([WarnResult "Translation result" kept;
             WarnReply "Got response" (RArr arr)], inl mismatchingLengths).
Proof.
  intros Hreply HN HM kept. split; [intros i; apply evenPositions_lookup|].
  rewrite (batchB_delivered _ _ _ _ Hreply).
  rewrite decodeTokenFree_array, reconcileTokenFree_parity by done.
  by rewrite evenPositions_length_half.
Qed.

(** X3. Variant A with exactly one segment: the call looks at the first
    string leaf of the delivered reply only. It resolves with the text
    decoded from that leaf, or with the leaf itself when the decoding is null
    or empty, so a leaf that does not decode never makes the call fail; it
    rejects with the length error exactly when the reply has no string leaf
    at all. *)
Theorem tokenAuthorized_single_response (text : list string) (from to : string)
    (arr : list RawReply) :
  tokenGranted getToken →
  delivers axios (RArr arr) →
  length text = 1 →
  translateBatchTokenAuthorized axios getToken stringify encodeURIComponent
    wrapUrlToCorsProxy optionsHeaders text from to =
    match stringLeaves arr with
    | [] => ([WarnReply "Got response" (RArr arr)], inl mismatchingLengths)
    | first :: _ => resolve [orElse (parseXMLResponse first) first]
    end.
Proof.
  intros Htoken Hreply HN. rewrite (batchA_delivered _ _ _ _ Htoken Hreply).
  rewrite decodeTokenAuthorized_array, reconcileTokenAuthorized_single, HN by done.
  by destruct (stringLeaves arr).
Qed.

(** X4. Variant A and a reply whose string leaves hold no [<]: none of them
    decodes. With exactly one segment the call resolves with the first leaf
    as it is; with any other number of segments nothing is kept, so the
    call resolves only for the empty batch and rejects with the length
    error otherwise. *)
Theorem tokenAuthorized_plain_leaves (text : list string) (from to : string)
    (arr : list RawReply) :
  tokenGranted getToken →
  delivers axios (RArr arr) →
  Forall noTagOpen (stringLeaves arr) →
  (∀ first others, length text = 1 → stringLeaves arr = first :: others →
     translateBatchTokenAuthorized axios getToken stringify encodeURIComponent
       wrapUrlToCorsProxy optionsHeaders text from to = resolve [first])
  ∧ (length text ≠ 1 →
       translateBatchTokenAuthorized axios getToken stringify encodeURIComponent
         wrapUrlToCorsProxy optionsHeaders text from to =
         if length text =? 0 then resolve []
         else ([WarnReply "Got response" (RArr arr)], inl mismatchingLengths)).
Proof.
  intros Htoken Hreply Hplain. rewrite (batchA_delivered _ _ _ _ Htoken Hreply).
  rewrite decodeTokenAuthorized_array. split.
  - intros first others HN Hleaves.
    rewrite reconcileTokenAuthorized_single, Hleaves, HN by done.
    rewrite Hleaves in Hplain. inversion Hplain as [|? ? Hfirst _]; subst.
    by rewrite parseXMLResponse_noTagOpen.
  - intros HN. rewrite reconcileTokenAuthorized_not_single by done.
    assert (Hnone : omap parseXMLResponse (stringLeaves arr) = []).
    { induction Hplain as [|s l Hs _ IH]; [done|].
      change (omap parseXMLResponse (s :: l))
        with (match parseXMLResponse s with
              | Some y => y :: omap parseXMLResponse l
              | None => omap parseXMLResponse l
              end).
      by rewrite parseXMLResponse_noTagOpen. }
    rewrite Hnone. by destruct text.
Qed.

(** X5. Variant A, a batch of texts that are not empty and hold no
    markup-special character: when the reply delivers the encoded fragments
    back, one string leaf each and in order, the call resolves with the
    texts of the batch. Encoding and reconciling are inverse to each other,
    for a single segment as for several. *)
Theorem tokenAuthorized_echo (text : list string) (from to : string) :
  tokenGranted getToken →
  delivers axios (RArr (RStr <$> encodeForBatch text)) →
  Forall (λ t, t ≠ EmptyString ∧ noMarkupSpecial t) text →
  translateBatchTokenAuthorized axios getToken stringify encodeURIComponent
    wrapUrlToCorsProxy optionsHeaders text from to = resolve text.
Proof.
  intros Htoken Hreply Htext. rewrite (batchA_delivered _ _ _ _ Htoken Hreply).
  by apply decodeTokenAuthorized_echo.
Qed.

(** X6. A reply with fewer string leaves than the batch has segments is
    never accepted: both batch calls reject with the length error. *)
Theorem short_reply_rejected (text : list string) (from to : string)
    (arr : list RawReply) :
  tokenGranted getToken →
  delivers axios (RArr arr) →
  length (stringLeaves arr) < length text →
  (translateBatchTokenAuthorized axios getToken stringify encodeURIComponent
     wrapUrlToCorsProxy optionsHeaders text from to).2 = inl mismatchingLengths
  ∧ (translateBatchTokenFree axios stringify wrapUrlToCorsProxy optionsHeaders
       text from to).2 = inl mismatchingLengths.
Proof.
  intros Htoken Hreply Hshort.
  rewrite (batchA_delivered _ _ _ _ Htoken Hreply), (batchB_delivered _ _ _ _ Hreply).
  rewrite decodeTokenAuthorized_array, decodeTokenFree_array.
  pose proof (reconcileTokenAuthorized_length text arr).
  pose proof (reconcileTokenFree_length text arr).
  destruct (Nat.eqb_spec (length (reconcileTokenAuthorized text arr)) (length text));
    [lia|].
  destruct (Nat.eqb_spec (length (reconcileTokenFree text arr)) (length text));
    [lia|done].
Qed.

(** X7. Once a reply is delivered, a batch call of either variant that
    rejects has written the reply, labelled "Got response", as its last
    console line, and a token-free batch call that resolves has written
    nothing. *)
Theorem batch_rejection_is_logged (text : list string) (from to : string)
    (rawResp : RawReply) :
  tokenGranted getToken →
  delivers axios rawResp →
  let rejectionLogged (outcome : Promise (list string)) :=
    ∀ err, outcome.2 = inl err →
      last outcome.1 = Some (WarnReply "Got response" rawResp) in
  rejectionLogged
    (translateBatchTokenAuthorized axios getToken stringify encodeURIComponent
       wrapUrlToCorsProxy optionsHeaders text from to)
  ∧ rejectionLogged
      (translateBatchTokenFree axios stringify wrapUrlToCorsProxy optionsHeaders
         text from to)
  ∧ (∀ result,
       (translateBatchTokenFree axios stringify wrapUrlToCorsProxy optionsHeaders
          text from to).2 = inr result →
       (translateBatchTokenFree axios stringify wrapUrlToCorsProxy optionsHeaders
          text from to).1 = []).
Proof.
  intros Htoken Hreply rejectionLogged. unfold rejectionLogged.
  rewrite (batchA_delivered _ _ _ _ Htoken Hreply), (batchB_delivered _ _ _ _ Hreply).
  destruct rawResp as [| | | |arr|]; try done.
  rewrite decodeTokenAuthorized_array, decodeTokenFree_array.
  destruct (length (reconcileTokenAuthorized text arr) =? length text),
    (length (reconcileTokenFree text arr) =? length text); done.
Qed.

(** X8. When the token service rejects, the token-authorized calls reject
    with its error and write nothing: the batch call asks for the token of
    the concatenated encoded segments, the single call for that of the text,
    and neither outcome depends on the transport. *)
Theorem token_failure_propagates (text : list string) (single : string)
    (from to : string) (err : Error) :
  (getToken (join EmptyString (encodeForBatch text)) = inl err →
     translateBatchTokenAuthorized axios getToken stringify encodeURIComponent
       wrapUrlToCorsProxy optionsHeaders text from to = ([], inl err))
  ∧ (getToken single = inl err →
       translateTokenAuthorized axios getToken stringify wrapUrlToCorsProxy
         optionsHeaders single from to = ([], inl err)).
Proof.
  split; intros Hfail.
  - unfold translateBatchTokenAuthorized. by rewrite Hfail.
  - unfold translateTokenAuthorized. by rewrite Hfail.
Qed.

(** X9. When the transport fails, every call rejects with the error of the
    transport and writes nothing to the console; no reply handler runs. *)
Theorem transport_failure_propagates (text : list string) (single : string)
    (from to : string) (err : Error) :
  transportFails axios err →
  translateBatchTokenFree axios stringify wrapUrlToCorsProxy optionsHeaders
    text from to = ([], inl err)
  ∧ translateTokenFree axios stringify wrapUrlToCorsProxy optionsHeaders
      single from to = ([], inl err)
  ∧ (tokenGranted getToken →
       translateBatchTokenAuthorized axios getToken stringify encodeURIComponent
         wrapUrlToCorsProxy optionsHeaders text from to = ([], inl err)
       ∧ translateTokenAuthorized axios getToken stringify wrapUrlToCorsProxy
           optionsHeaders single from to = ([], inl err)).
Proof.
  intros Hfail.
  assert (HB : ∀ t, batchB t from to = ([], inl err)).
  { intros t. unfold translateBatchTokenFree. by rewrite Hfail. }
  split; [apply HB|]. split.
  - unfold translateTokenFree. by rewrite HB.
  - intros Htoken. split.
    + unfold translateBatchTokenAuthorized.
      destruct (Htoken (join EmptyString (encodeForBatch text))) as [tk ->].
      by rewrite andThen_settled_delivered, Hfail.
    + unfold translateTokenAuthorized. destruct (Htoken single) as [tk ->].
      by rewrite andThen_settled_delivered, Hfail.
Qed.

(** X10. The single-text call of the token-authorized translator rejects
    with "Unexpected response" when the delivered reply is not an array, is
    the empty array, or does not start with an array; it writes nothing to
    the console. *)
Theorem translate_shape_guard (text : string) (from to : string) (rsp : RawReply) :
  tokenGranted getToken →
  delivers axios rsp →
  isArray rsp = false
  ∨ rsp = RArr []
  ∨ (∃ first others, rsp = RArr (first :: others) ∧ isArray first = false) →
  translateTokenAuthorized axios getToken stringify wrapUrlToCorsProxy optionsHeaders
    text from to = ([], inl unexpectedResponse).
Proof.
  intros Htoken Hreply Hshape.
  rewrite (translateTokenAuthorized_delivered _ _ _ _ Htoken Hreply).
  destruct Hshape as [Hshape|[->|(first & others & -> & Hfirst)]].
  - by destruct rsp.
  - done.
  - by destruct first.
Qed.

(** X11. The single-text call on a reply that starts with an array of
    chunks always resolves: with the concatenation, in order, of the
    strings that the array chunks start with. Chunks that are no array, are
    empty or start with something else contribute nothing, and what follows
    the first element of the reply is ignored. *)
Theorem translate_concatenates_chunks (text : string) (from to : string)
    (chunks others : list RawReply) :
  tokenGranted getToken →
  delivers axios (RArr (RArr chunks :: others)) →
  translateTokenAuthorized axios getToken stringify wrapUrlToCorsProxy optionsHeaders
    text from to = resolve (String.concat EmptyString (omap leadingString chunks)).
Proof.
  intros Htoken Hreply.
  rewrite (translateTokenAuthorized_delivered _ _ _ _ Htoken Hreply).
  cbn. by rewrite join_chunkText.
Qed.
End MoreCallProperties.

(** ** The supported languages *)

Lemma reversedLanguagesMap_lookup (lang : string) :
  reversedLanguagesMap !! lang =
  if String.eqb lang "iw" then Some "he"
  else if String.eqb lang "jw" then Some "jv" else None.
Proof.
  assert (Hmap : reversedLanguagesMap = {[ "iw" := "he"; "jw" := "jv" ]})
    by (by vm_compute).
  rewrite Hmap.
  destruct (String.eqb_spec lang "iw") as [->|Hiw]; [done|].
  rewrite lookup_insert_ne by done.
  destruct (String.eqb_spec lang "jw") as [->|Hjw]; [done|].
  by rewrite lookup_singleton_ne.
Qed.

Lemma getFixedLanguage_cases (lang : string) :
  getFixedLanguage lang =
  if String.eqb lang "zh" then "zh-CN"
  else if String.eqb lang "he" then "iw"
  else if String.eqb lang "jv" then "jw" else lang.
Proof.
  unfold getFixedLanguage. rewrite fixedLanguagesMap_lookup.
  by repeat case_match.
Qed.

Lemma actualLanguageCode_cases (lang : string) :
  actualLanguageCode lang =
  if String.eqb lang "iw" then "he"
  else if String.eqb lang "jw" then "jv" else lang.
Proof.
  unfold actualLanguageCode. rewrite reversedLanguagesMap_lookup.
  by repeat case_match.
Qed.

(** X12. Replacing the legacy codes and fixing the codes again are inverse to
    each other away from the aliases: [getFixedLanguage] undoes the
    replacement on every code but he, jv and zh, and the replacement undoes
    [getFixedLanguage] on every code but iw, jw and zh. None of he, jv and zh
    is in the raw list, so every language handed to the ISO filter is sent
    to the service as the code of the raw list it came from, and whenever
    the filter only selects among its input, so is every language reported
    as supported. *)
Theorem supported_languages_round_trip
    (getLanguageCodesISO639v2 : list string → list string) :
  (∀ lang, lang ≠ "he" → lang ≠ "jv" → lang ≠ "zh" →
     getFixedLanguage (actualLanguageCode lang) = lang)
  ∧ (∀ lang, lang ≠ "iw" → lang ≠ "jw" → lang ≠ "zh" →
       actualLanguageCode (getFixedLanguage lang) = lang)
  ∧ getFixedLanguage <$> (actualLanguageCode <$> supportedLanguages) = supportedLanguages
  ∧ ((∀ codes, getLanguageCodesISO639v2 codes ⊆ codes) →
       ∀ lang, lang ∈ getSupportedLanguages getLanguageCodesISO639v2 →
         getFixedLanguage lang ∈ supportedLanguages
         ∧ lang ≠ "iw" ∧ lang ≠ "jw").
Proof.
  assert (Hback : ∀ lang, lang ≠ "he" → lang ≠ "jv" → lang ≠ "zh" →
                    getFixedLanguage (actualLanguageCode lang) = lang).
  { intros lang Hhe Hjv Hzh.
    rewrite actualLanguageCode_cases, getFixedLanguage_cases.
    repeat case_match; try done;
      repeat match goal with
        | H : String.eqb _ _ = true |- _ => apply String.eqb_eq in H
        | H : String.eqb _ _ = false |- _ => apply String.eqb_neq in H
        end; congruence. }
  assert (Hraw : Forall (λ lang, lang ≠ "he" ∧ lang ≠ "jv" ∧ lang ≠ "zh")
                   supportedLanguages).
  { unfold supportedLanguages. repeat (constructor; [done|]). constructor. }
  split; [exact Hback|]. split; [|split].
  - intros lang Hiw Hjw Hzh.
    rewrite getFixedLanguage_cases, actualLanguageCode_cases.
    repeat case_match; try done;
      repeat match goal with
        | H : String.eqb _ _ = true |- _ => apply String.eqb_eq in H
        | H : String.eqb _ _ = false |- _ => apply String.eqb_neq in H
        end; congruence.
  - rewrite <- list_fmap_compose. rewrite <- (list_fmap_id supportedLanguages) at 2.
    apply Forall_fmap_ext. eapply Forall_impl; [exact Hraw|].
    intros lang (Hhe & Hjv & Hzh). by apply Hback.
  - intros Hfilter lang Hin. apply Hfilter in Hin.
    apply list_elem_of_fmap in Hin as (raw & -> & Hin).
    rewrite Forall_forall in Hraw. destruct (Hraw raw Hin) as (Hhe & Hjv & Hzh).
    split; [by rewrite Hback|].
    rewrite actualLanguageCode_cases.
    split; repeat case_match; try done;
      repeat match goal with
        | H : String.eqb _ _ = true |- _ => apply String.eqb_eq in H
        | H : String.eqb _ _ = false |- _ => apply String.eqb_neq in H
        end; congruence.
Qed.

(** ** More on the length limit *)

Lemma checkLimitExceeding_list (textList : list string) :
  checkLimitExceeding (TextList textList) =
  Z.max 0 (Z.of_nat (encodedLength textList) - 4000).
Proof.
  unfold checkLimitExceeding, getLengthLimit. rewrite encodeForBatch_length.
  destruct (Z.ltb_spec 0 (Z.of_nat (encodedLength textList) - 4000)); lia.
Qed.

Lemma checkLimitExceeding_one (text : string) :
  checkLimitExceeding (OneText text) = Z.max 0 (Z.of_nat (String.length text) - 4000).
Proof.
  unfold checkLimitExceeding, getLengthLimit.
  destruct (Z.ltb_spec 0 (Z.of_nat (String.length text) - 4000)); lia.
Qed.

Lemma sum_list_app_nat (l1 l2 : list nat) :
  sum_list (l1 ++ l2) = sum_list l1 + sum_list l2.
Proof. induction l1 as [|x l1 IH]; simpl; [done|]. rewrite IH. lia. Qed.

Lemma encodedLength_app (l1 l2 : list string) :
  encodedLength l1 ≤ encodedLength (l1 ++ l2).
Proof. unfold encodedLength. rewrite imap_app, sum_list_app_nat. lia. Qed.

Lemma numberToString_nonempty (i : nat) : 1 ≤ String.length (numberToString i).
Proof.
  unfold numberToString. destruct (Nat.to_uint i) eqn:Hu; cbn; try lia.
  pose proof (Unsigned.of_to i) as Hback. rewrite Hu in Hback.
  simpl in Hback. by subst i.
Qed.

Lemma encodedLength_overhead (textList : list string) : ∀ k,
  String.length (join EmptyString textList) + 24 * length textList ≤
  sum_list (imap (λ i text, 23 + String.length (numberToString (k + i))
                            + String.length text) textList).
Proof.
  unfold join. induction textList as [|text textList IH]; intros k; [done|].
  rewrite imap_cons, concat_empty_cons, String_length_app.
  cbn [sum_list sum_list_with length].
  pose proof (numberToString_nonempty (k + 0)).
  specialize (IH (S k)).
  erewrite (imap_ext _ (λ i text0, 23 + String.length (numberToString (S k + i))
                                   + String.length text0)).
  - unfold id.
    match goal with
    | IH : _ ≤ ?r |- _ ≤ _ + ?r' => change r' with r; generalize dependent r
    end.
    intros total IH. cbn [length].
    assert (Harith : ∀ a b d n t, 1 ≤ d → b + 24 * n ≤ t →
                       a + b + 24 * S n ≤ 23 + d + a + t) by (intros; lia).
    by apply Harith.
  - intros i t _. unfold compose. by replace (k + S i) with (S k + i) by lia.
Qed.

(** X13. The excess of a batch is never negative and never shrinks when
    segments are appended to the batch: a batch within the limit has all its
    prefixes within the limit. *)
Theorem checkLimitExceeding_grows (textList more : list string) :
  (0 ≤ checkLimitExceeding (TextList textList)
   ∧ checkLimitExceeding (TextList textList)
     ≤ checkLimitExceeding (TextList (textList ++ more))
   ∧ (checkLimitExceeding (TextList (textList ++ more)) = 0 →
      checkLimitExceeding (TextList textList) = 0))%Z.
Proof.
  rewrite !checkLimitExceeding_list.
  pose proof (encodedLength_app textList more). lia.
Qed.

(** X14. Encoding costs at least 24 characters per segment on top of the
    texts: the excess of a batch is at least the excess that the
    concatenated texts with 24 more characters per segment would have, hence
    at least the excess of the concatenated texts taken as one string. A
    text of more than 3976 characters exceeds the limit as a batch of one
    while it may fit as a single text. *)
Theorem checkLimitExceeding_overhead (textList : list string) :
  (Z.max 0 (Z.of_nat (String.length (join EmptyString textList))
            + 24 * Z.of_nat (length textList) - 4000)
   ≤ checkLimitExceeding (TextList textList)
   ∧ checkLimitExceeding (OneText (join EmptyString textList))
     ≤ checkLimitExceeding (TextList textList))%Z
  ∧ ∀ text : string,
      checkLimitExceeding (TextList [text]) =
      Z.max 0 (Z.of_nat (String.length text) + 24 - 4000).
Proof.
  split.
  - rewrite checkLimitExceeding_list, checkLimitExceeding_one.
    pose proof (encodedLength_overhead textList 0) as H.
    change (sum_list _) with (encodedLength textList) in H. lia.
  - intros text. rewrite checkLimitExceeding_list.
    unfold encodedLength. cbn. lia.
Qed.

(** ** Variant B hands leaves on as they are *)

Lemma forIn_sublist single oneToOne entries : ∀ idx result,
  ∃ kept, forIn single oneToOne idx entries result = result ++ kept
          ∧ sublist kept entries.
Proof.
  induction entries as [|text rest IH]; intros idx result; cbn [forIn].
  - exists []. by rewrite app_nil_r.
  - destruct single.
    + exists [text]. split; [done|]. apply sublist_skip, sublist_nil_l.
    + destruct (IH (S idx) (if oneToOne || (idx mod 2 =? 0)
                            then result ++ [text] else result)) as (kept & -> & Hkept).
      destruct (oneToOne || (idx mod 2 =? 0)).
      * exists (text :: kept). split; [by rewrite <- app_assoc|by apply sublist_skip].
      * exists kept. split; [done|by apply sublist_cons].
Qed.

(** X15. Whatever the mode, a resolved token-free batch call holds a
    subsequence of the string leaves of the delivered reply: entries are
    leaves handed on unchanged and in their order, none is made up. *)
Theorem tokenFree_result_is_subsequence
    (axios : AxiosRequest → Error + RawReply)
    (stringify : list (string * QueryValue) → string)
    (wrapUrlToCorsProxy : string → string) (optionsHeaders : list (string * string))
    (text : list string) (from to : string) (arr : list RawReply)
    (w : list Warning) (result : list string) :
  delivers axios (RArr arr) →
  translateBatchTokenFree axios stringify wrapUrlToCorsProxy optionsHeaders
    text from to = (w, inr result) →
  sublist result (stringLeaves arr) ∧ length result = length text.
Proof.
  intros Hreply. rewrite (translateBatchTokenFree_delivered _ _ _ _ _ _ _ _ Hreply).
  intros Hresolved. split; [|by eapply decodeTokenFree_resolved].
  rewrite decodeTokenFree_array in Hresolved.
  destruct (length (reconcileTokenFree text arr) =? length text); [|done].
  injection Hresolved as _ <-.
  unfold reconcileTokenFree. rewrite collected_stringLeaves.
  destruct (forIn_sublist (length text =? 1)
              (length (stringLeaves arr) =? length text) (stringLeaves arr) 0 [])
    as (kept & -> & Hkept).
  done.
Qed.

(** ** The encoding loses nothing *)

Lemma app_quote_inj (q : ascii) (a b x y : string) :
  Forall (λ c, c ≠ q) (list_ascii_of_string a) →
  Forall (λ c, c ≠ q) (list_ascii_of_string b) →
  a +:+ String q x = b +:+ String q y → a = b ∧ x = y.
Proof.
  revert b. induction a as [|c a IH]; intros [|d b] Ha Hb Heq.
  - by injection Heq as ->.
  - injection Heq as <- _. inversion Hb; subst. done.
  - injection Heq as -> _. inversion Ha; subst. done.
  - change (String c (a +:+ String q x) = String d (b +:+ String q y)) in Heq.
    injection Heq as -> Heq. inversion Ha; inversion Hb; subst.
    destruct (IH b) as [-> ->]; done.
Qed.

Lemma app_inj_r (t u s : string) : t +:+ s = u +:+ s → t = u.
Proof.
  revert u. induction t as [|c t IH]; intros [|d u] Heq; [done| | |].
  - apply (f_equal String.length) in Heq.
    rewrite !String_length_app in Heq. cbn in Heq. lia.
  - apply (f_equal String.length) in Heq.
    rewrite !String_length_app in Heq. cbn in Heq. lia.
  - change (String c (t +:+ s) = String d (u +:+ s)) in Heq.
    injection Heq as -> Heq. by rewrite (IH u Heq).
Qed.

Lemma numberToString_inj (i j : nat) : numberToString i = numberToString j → i = j.
Proof.
  unfold numberToString. intros Heq. apply Unsigned.to_uint_inj.
  apply (f_equal DecimalString.NilEmpty.uint_of_string) in Heq.
  rewrite !DecimalString.NilEmpty.usu in Heq. congruence.
Qed.

Lemma encodeSegment_inj (i j : nat) (t u : string) :
  encodeSegment i t = encodeSegment j u → i = j ∧ t = u.
Proof.
  rewrite !encodeSegment_unfold. intros Heq.
  apply String.app_inj in Heq. apply String.app_inj in Heq.
  injection Heq as Heq.
  apply app_quote_inj in Heq as [Hnum Heq].
  - injection Heq as Heq.
    change (t +:+ "</a>" +:+ "</pre>") with (t +:+ "</a></pre>") in Heq.
    change (u +:+ "</a>" +:+ "</pre>") with (u +:+ "</a></pre>") in Heq.
    split; [by apply numberToString_inj|by eapply app_inj_r].
  - eapply Forall_impl; [apply numberToString_digits|].
    intros c Hc ->. by vm_compute in Hc.
  - eapply Forall_impl; [apply numberToString_digits|].
    intros c Hc ->. by vm_compute in Hc.
Qed.

(** X16. [encodeForBatch] keeps the number of segments and loses nothing,
    whatever the texts hold: the fragment of a segment determines both its
    position and its text, and two batches with the same encoding are the
    same batch. *)
Theorem encodeForBatch_injective (textList textList' : list string) :
  length (encodeForBatch textList) = length textList
  ∧ (∀ i j t u, encodeSegment i t = encodeSegment j u → i = j ∧ t = u)
  ∧ (encodeForBatch textList = encodeForBatch textList' → textList = textList').
Proof.
  split; [apply length_imap|]. split; [apply encodeSegment_inj|].
  intros Heq. apply list_eq. intros i.
  apply (f_equal (λ l, l !! i)) in Heq. unfold encodeForBatch in Heq.
  rewrite !list_lookup_imap in Heq.
  destruct (textList !! i) as [t|], (textList' !! i) as [u|]; try done.
  assert (Hseg : encodeSegment i t = encodeSegment i u) by exact (Some_inj _ _ Heq).
  by apply encodeSegment_inj in Hseg as [_ ->].
Qed.

(** ** Examples *)

Lemma granting_granted : tokenGranted granting.
Proof. intros input. by exists "tk". Qed.

Lemma delivering_delivers rawResp : delivers (delivering rawResp) rawResp.
Proof. by intros request. Qed.

Lemma tokenFree_one_to_one_witness :
  translateBatchTokenFree (delivering (RArr [RStr "uno"; RArr [RNum 1; RStr "dos"]]))
    noQuery id [] ["one"; "two"] "en" "es" = resolve ["uno"; "dos"].
Proof.
  exact (tokenFree_one_to_one _ noQuery id [] ["one"; "two"] "en" "es"
           [RStr "uno"; RArr [RNum 1; RStr "dos"]]
           (delivering_delivers _) eq_refl).
Defined.

(** Three string leaves for two segments: the first and the third. *)
Lemma tokenFree_parity_resolution_witness :
  translateBatchTokenFree (delivering (RArr [RStr "uno"; RStr "one"; RStr "dos"]))
    noQuery id [] ["one"; "two"] "en" "es" = resolve ["uno"; "dos"].
Proof.
  exact (proj2 (tokenFree_parity_resolution _ noQuery id [] ["one"; "two"] "en" "es"
                  [RStr "uno"; RStr "one"; RStr "dos"]
                  (delivering_delivers _) ltac:(discriminate) ltac:(discriminate))).
Defined.

Lemma tokenAuthorized_single_response_witness :
  translateBatchTokenAuthorized
    (delivering (RArr [RNum 1; RArr [RStr (encodeSegment 0 "salut")]; RStr "hi"]))
    granting noQuery id id [] ["hi"] "en" "fr" = resolve ["salut"].
Proof.
  exact (tokenAuthorized_single_response _ granting noQuery id id [] ["hi"] "en" "fr"
           [RNum 1; RArr [RStr (encodeSegment 0 "salut")]; RStr "hi"]
           granting_granted (delivering_delivers _) eq_refl).
Defined.

Lemma tokenAuthorized_plain_leaves_witness :
  translateBatchTokenAuthorized (delivering (RArr [RStr "salut"; RStr "hi"]))
    granting noQuery id id [] ["hi"] "en" "fr" = resolve ["salut"]
  ∧ translateBatchTokenAuthorized (delivering (RArr [RStr "salut"; RStr "monde"]))
      granting noQuery id id [] ["hi"; "world"] "en" "fr" =
    ([WarnReply "Got response" (RArr [RStr "salut"; RStr "monde"])],
     inl mismatchingLengths).
Proof.
  split.
  - refine (proj1 (tokenAuthorized_plain_leaves _ granting noQuery id id []
                     ["hi"] "en" "fr" [RStr "salut"; RStr "hi"]
                     granting_granted (delivering_delivers _) _)
              "salut" ["hi"] eq_refl eq_refl).
    unfold noTagOpen. simpl. repeat constructor.
  - refine (proj2 (tokenAuthorized_plain_leaves _ granting noQuery id id []
                     ["hi"; "world"] "en" "fr" [RStr "salut"; RStr "monde"]
                     granting_granted (delivering_delivers _) _) _).
    + unfold noTagOpen. simpl. repeat constructor.
    + discriminate.
Defined.

Lemma tokenAuthorized_echo_witness :
  translateBatchTokenAuthorized
    (delivering (RArr (RStr <$> encodeForBatch ["hello"; "world"])))
    granting noQuery id id [] ["hello"; "world"] "en" "fr" = resolve ["hello"; "world"].
Proof.
  refine (tokenAuthorized_echo _ granting noQuery id id [] ["hello"; "world"] "en" "fr"
            granting_granted (delivering_delivers _) _).
  unfold noMarkupSpecial. simpl. repeat constructor; discriminate.
Defined.

Lemma short_reply_rejected_witness :
  (translateBatchTokenAuthorized (delivering (RArr [RStr (encodeSegment 0 "uno")]))
     granting noQuery id id [] ["one"; "two"] "en" "es").2 = inl mismatchingLengths
  ∧ (translateBatchTokenFree (delivering (RArr [RStr (encodeSegment 0 "uno")]))
       noQuery id [] ["one"; "two"] "en" "es").2 = inl mismatchingLengths.
Proof.
  refine (short_reply_rejected _ granting noQuery id id [] ["one"; "two"] "en" "es"
            [RStr (encodeSegment 0 "uno")] granting_granted (delivering_delivers _) _).
  simpl. lia.
Defined.

Lemma batch_rejection_is_logged_witness :
  last (translateBatchTokenAuthorized (delivering RNull) granting noQuery id id []
          ["hi"] "en" "fr").1 =
    Some (WarnReply "Got response" RNull).
Proof.
  exact (proj1 (batch_rejection_is_logged _ granting noQuery id id [] ["hi"] "en" "fr"
                  RNull granting_granted (delivering_delivers _))
           unexpectedResponse eq_refl).
Defined.

Lemma token_failure_propagates_witness :
  translateBatchTokenAuthorized (delivering (RArr [RStr "salut"]))
    (refusing (mkError "no token")) noQuery id id [] ["hi"] "en" "fr" =
    ([], inl (mkError "no token")).
Proof.
  exact (proj1 (token_failure_propagates (delivering (RArr [RStr "salut"]))
                  (refusing (mkError "no token")) noQuery id id [] ["hi"] "hi"
                  "en" "fr" (mkError "no token")) eq_refl).
Defined.

Lemma transport_failure_propagates_witness :
  translateBatchTokenFree (failing (mkError "timeout")) noQuery id [] ["hi"] "en" "fr" =
    ([], inl (mkError "timeout"))
  ∧ translateTokenFree (failing (mkError "timeout")) noQuery id [] "hi" "en" "fr" =
    ([], inl (mkError "timeout")).
Proof.
  pose proof (transport_failure_propagates (failing (mkError "timeout")) granting
                noQuery id id [] ["hi"] "hi" "en" "fr" (mkError "timeout")
                (λ _, eq_refl)) as H.
  exact (conj (proj1 H) (proj1 (proj2 H))).
Defined.

Lemma translate_shape_guard_witness :
  translateTokenAuthorized (delivering (RArr [])) granting noQuery id [] "hi" "en" "fr" =
    ([], inl unexpectedResponse).
Proof.
  exact (translate_shape_guard _ granting noQuery id [] "hi" "en" "fr" (RArr [])
           granting_granted (delivering_delivers _) (or_intror (or_introl eq_refl))).
Defined.

Lemma translate_concatenates_chunks_witness :
  translateTokenAuthorized
    (delivering
       (RArr [ RArr [ RArr [RStr "Bonjour "; RStr "Hello "];
                      RArr [RNull; RStr "x"];
                      RArr [];
                      RStr "y";
                      RArr [RStr "monde"; RStr "world"] ];
               RNull; RStr "en" ]))
    granting noQuery id [] "Hello world" "en" "fr" = resolve "Bonjour monde".
Proof.
  exact (translate_concatenates_chunks _ granting noQuery id [] "Hello world" "en" "fr"
           [ RArr [RStr "Bonjour "; RStr "Hello "];
             RArr [RNull; RStr "x"];
             RArr [];
             RStr "y";
             RArr [RStr "monde"; RStr "world"] ]
           [RNull; RStr "en"]
           granting_granted (delivering_delivers _)).
Defined.

Lemma supported_languages_round_trip_witness :
  getFixedLanguage (actualLanguageCode "iw") = "iw"
  ∧ actualLanguageCode (getFixedLanguage "he") = "he"
  ∧ getFixedLanguage "he" ∈ supportedLanguages.
Proof.
  pose proof (supported_languages_round_trip id) as (Hback & Hforth & _ & Hin).
  split; [apply Hback; discriminate|]. split; [apply Hforth; discriminate|].
  refine (proj1 (Hin (λ codes, reflexivity codes) "he" _)).
  apply (bool_decide_unpack _). by vm_compute.
Defined.

Lemma checkLimitExceeding_grows_witness :
  checkLimitExceeding (TextList ["hello"]) = 0%Z.
Proof.
  refine (proj2 (proj2 (checkLimitExceeding_grows ["hello"] ["world"])) _).
  by vm_compute.
Defined.

Lemma tokenFree_result_is_subsequence_witness :
  sublist ["uno"; "dos"] ["uno"; "one"; "dos"; "two"] ∧ length ["uno"; "dos"] = 2.
Proof.
  exact (tokenFree_result_is_subsequence
           (delivering (RArr [RStr "uno"; RStr "one"; RStr "dos"; RStr "two"]))
           noQuery id [] ["one"; "two"] "en" "es"
           [RStr "uno"; RStr "one"; RStr "dos"; RStr "two"] [] ["uno"; "dos"]
           (delivering_delivers _) eq_refl).
Defined.

Lemma encodeForBatch_injective_witness :
  encodeSegment 0 "a<b" ≠ encodeSegment 1 "a<b"
  ∧ encodeForBatch ["uno"; "dos"] ≠ encodeForBatch ["dos"; "uno"].
Proof.
  split.
  - intros Heq.
    apply (proj1 (proj2 (encodeForBatch_injective [] []))) in Heq as [Heq _].
    discriminate.
  - intros Heq.
    apply (proj2 (proj2 (encodeForBatch_injective ["uno"; "dos"] ["dos"; "uno"]))) in Heq.
    discriminate.
Defined.
